(** * pyphysim: the single-user SISO channel facade and [randn_c]

    A shallow embedding of [pyphysim/channels/singleuser.py] (class
    [SuSisoChannel]) and of [util/misc.py] ([randn_c], the integer
    helpers [xor], [int2bits], [level2bits] and
    [_count_bits_single_element], [pretty_time], the autocorrelation
    functions, and the selection of singular vectors and eigenvectors in
    [least_right_singular_vectors], [peig] and [leig]).

    Conventions of the embedding.
    - Python floats (and the ints that are compared with them) are
      idealised as real numbers: rounding is outside the model. The
      pathloss, whose value decides a branch of [set_pathloss], is a
      real number or the float NaN; an infinity is refused by the guard
      like any number beyond the unit interval and is not represented.
    - A numpy complex array is a list of complex numbers, a complex
      number a pair of reals.
    - A method is a computation in a state-and-exception monad over the
      object it is called on: it returns either a raised exception or a
      value, together with the object's state afterwards.
    - The classes [fading.TdlChannel], [fading.TdlImpulseResponse] and
      [fading_generators.RayleighSampleGenerator] are collaborators of
      [SuSisoChannel]; the facade is stated over their interface.
    - Python ints are integers of [Z]. A loop that need not end is run
      with a bound on its rounds and answers [None] when the bound is
      reached; the theorems give a bound that is enough.
    - The module is written for Python 2: [/] between ints rounds down.
    - The decompositions of numpy ([np.linalg.svd], [np.linalg.eig]) and
      [np.argsort] are parameters. *)

From Stdlib Require Import String DecimalString ZArith Reals Lra Lia List Bool Arith.
From Stdlib Require Import Permutation.
Import ListNotations.

Set Implicit Arguments.

(* ================================================================= *)
(** ** Numbers and arrays *)

Open Scope R_scope.

(** Python's [x < y] on numbers, as a boolean. *)
Definition Rltb (x y : R) : bool := if Rlt_dec x y then true else false.

(** A complex number [re + im*j]. *)
Record C : Type := mkC { Re : R; Im : R }.

Definition Cadd (a b : C) : C := mkC (Re a + Re b) (Im a + Im b).

Definition Cmul (a b : C) : C :=
  mkC (Re a * Re b - Im a * Im b) (Re a * Im b + Im a * Re b).

(** A real number used as a complex one, and the imaginary unit [1j]. *)
Definition RtoC (x : R) : C := mkC x 0.
Definition Cj : C := mkC 0 1.

(** Product of a real scalar with a complex number. *)
Definition Cscale (s : R) (z : C) : C := Cmul (RtoC s) z.

Definition C0 : C := mkC 0 0.

Definition Csum (l : list C) : C := fold_right Cadd C0 l.

(** Squared modulus. *)
Definition Cnorm2 (z : C) : R := Re z * Re z + Im z * Im z.

(** One-dimensional complex array. *)
Definition ndarray : Type := list C.

(** [a *= s] and [s * a] for an array [a] and a real scalar [s]: numpy
    broadcasts the scalar over every element. *)
Definition imul (a : ndarray) (s : R) : ndarray := map (Cscale s) a.

(** [np.zeros(n)] as an array of reals. *)
Definition np_zeros (n : nat) : list R := repeat 0 n.

(* ================================================================= *)
(** ** Exceptions and the method monad *)

Inductive exn : Type :=
| ValueError (msg : string)
| Exception (msg : string).

(** A computation on an object of state [S]: outcome and state after. *)
Definition M (S A : Type) : Type := S -> (exn + A) * S.

Definition ret {S A : Type} (a : A) : M S A := fun s => (inr a, s).

Definition raise {S A : Type} (e : exn) : M S A := fun s => (inl e, s).

Definition bind {S A B : Type} (m : M S A) (k : A -> M S B) : M S B :=
  fun s =>
    match m s with
    | (inl e, s') => (inl e, s')
    | (inr a, s') => k a s'
    end.

Definition gets {S A : Type} (f : S -> A) : M S A := fun s => (inr (f s), s).

Definition modify {S : Type} (f : S -> S) : M S unit := fun s => (inr tt, f s).

(** A pure computation that may raise, run inside a method. *)
Definition lift_result {S A : Type} (r : exn + A) : M S A := fun s => (r, s).

(** A method of an owned object (attribute read by [getf], written back
    by [setf]) called from a method of its owner. *)
Definition on_attr {S T A : Type}
  (getf : S -> T) (setf : T -> S -> S) (m : M T A) : M S A :=
  fun s => let (r, t') := m (getf s) in (r, setf t' s).

Declare Scope method_scope.
Delimit Scope method_scope with method.
Notation "x <- m ;; k" := (bind m (fun x => k))
  (at level 100, m at next level, right associativity) : method_scope.
Notation "m ;;; k" := (bind m (fun _ => k))
  (at level 100, right associativity) : method_scope.

(** [math.sqrt]: a [ValueError] on a negative argument. *)
Definition math_sqrt (x : R) : exn + R :=
  if Rltb x 0 then inl (ValueError "math domain error") else inr (sqrt x).

(** A float as [set_pathloss] may receive it: a real number, or NaN. *)
Inductive pyfloat : Type :=
| Fin (x : R)
| NaN.

Coercion Fin : R >-> pyfloat.

(** [a < b] on floats: False as soon as one of them is NaN. *)
Definition float_ltb (a b : pyfloat) : bool :=
  match a, b with
  | Fin x, Fin y => Rltb x y
  | _, _ => false
  end.

(** [math.sqrt] on a float: NaN for NaN, without an exception. *)
Definition math_sqrt_float (x : pyfloat) : exn + pyfloat :=
  match x with
  | Fin r =>
      match math_sqrt r with
      | inl e => inl e
      | inr s => inr (Fin s)
      end
  | NaN => inr NaN
  end.

(** The square root of a float that [math.sqrt] accepts. *)
Definition float_sqrt (x : pyfloat) : pyfloat :=
  match x with
  | Fin r => Fin (sqrt r)
  | NaN => NaN
  end.

(* ================================================================= *)
(** ** The interface of the collaborators *)

(** The parameters of [fading.TdlChannel.__init__], in the order in which
    [SuSisoChannel.__init__] passes them by position. A parameter that a
    call leaves out is recorded as [None]. *)
Record TdlChannelArgs (Gen Profile : Type) : Type := mkTdlArgs {
  arg_fading_generator : Gen;
  arg_channel_profile : option Profile;
  arg_tap_powers_dB : option (list R);
  arg_tap_delays : option (list R);
  arg_Ts : option R
}.

(** What [SuSisoChannel] uses of [fading.TdlChannel] (state [Tdl]), of
    [fading.TdlImpulseResponse] (values [IR]) and of the fading
    generators (objects [Gen]). *)
Class TdlChannelOps (Gen Profile Tdl IR : Type) : Type := {
  (** [fading_generators.RayleighSampleGenerator()] *)
  RayleighSampleGenerator : Gen;
  (** [fading.TdlChannel(...)] *)
  TdlChannel_new : TdlChannelArgs Gen Profile -> exn + Tdl;
  (** [TdlChannel.corrupt_data(signal)] *)
  tdl_corrupt_data : ndarray -> M Tdl ndarray;
  (** [TdlChannel.corrupt_data_in_freq_domain(signal, fft_size, carrier_indexes)] *)
  tdl_corrupt_data_in_freq_domain :
    ndarray -> nat -> option (list nat) -> M Tdl ndarray;
  (** [TdlChannel.get_last_impulse_response()] *)
  tdl_get_last_impulse_response : M Tdl IR;
  (** [scalar * impulse_response], that is [TdlImpulseResponse.__rmul__] *)
  ir_rmul : R -> IR -> IR
}.

(** The products by the float NaN. Arrays and impulse responses are
    described over the real numbers, where an array of NaNs has no
    description: what numpy leaves for [output *= nan], an array of the
    same length, and [TdlImpulseResponse] for [nan * impulse_response],
    is left open. No branch of the program depends on it. *)
Class NaNProducts (IR : Type) : Type := {
  nan_filled : ndarray -> ndarray;
  nan_filled_length : forall output, length (nan_filled output) = length output;
  nan_response : IR -> IR
}.

(* ================================================================= *)
(** ** [SuSisoChannel] *)

Section SuSiso.

Context {Gen Profile Tdl IR : Type}.
Context {ops : TdlChannelOps Gen Profile Tdl IR}.
Context {nan_products : NaNProducts IR}.

Record SuSisoChannel : Type := mkSuSisoChannel {
  _tdlchannel : Tdl;
  _pathloss_value : option pyfloat
}.

(** [output *= s] for a float [s]. *)
Definition array_imul (output : ndarray) (s : pyfloat) : ndarray :=
  match s with
  | Fin r => imul output r
  | NaN => nan_filled output
  end.

(** [s * impulse_response] for a float [s]. *)
Definition response_rmul (s : pyfloat) (h : IR) : IR :=
  match s with
  | Fin r => ir_rmul r h
  | NaN => nan_response h
  end.

Definition set_tdlchannel (t : Tdl) (self : SuSisoChannel) : SuSisoChannel :=
  mkSuSisoChannel t (_pathloss_value self).

Definition set_pathloss_value (v : option pyfloat) (self : SuSisoChannel)
  : SuSisoChannel :=
  mkSuSisoChannel (_tdlchannel self) v.

(** A method of [self._tdlchannel] called from a facade method. *)
Definition on_tdlchannel {A : Type} (m : M Tdl A) : M SuSisoChannel A :=
  on_attr _tdlchannel set_tdlchannel m.

(** The arguments with which [__init__] calls [fading.TdlChannel]. *)
Definition SuSisoChannel_init_args
  (fading_generator : option Gen) (channel_profile : option Profile)
  (tap_powers_dB tap_delays : option (list R)) (Ts : option R)
  : TdlChannelArgs Gen Profile :=
  let '(fading_generator', Ts') :=
    match fading_generator with
    | None =>
        (RayleighSampleGenerator,
         match channel_profile, Ts with
         | None, None => Some 1
         | _, _ => Ts
         end)
    | Some g => (g, Ts)
    end in
  match channel_profile, tap_powers_dB, tap_delays with
  | None, None, None =>
      mkTdlArgs fading_generator' None
                (Some (np_zeros 1)) (Some (np_zeros 1)) Ts'
  | _, _, _ =>
      mkTdlArgs fading_generator' channel_profile
                tap_powers_dB tap_delays Ts'
  end.

(** [SuSisoChannel.__init__] *)
Definition SuSisoChannel_init
  (fading_generator : option Gen) (channel_profile : option Profile)
  (tap_powers_dB tap_delays : option (list R)) (Ts : option R)
  : exn + SuSisoChannel :=
  match TdlChannel_new (SuSisoChannel_init_args fading_generator channel_profile
                                            tap_powers_dB tap_delays Ts) with
  | inl e => inl e
  | inr t => inr (mkSuSisoChannel t None)
  end.

(** [SuSisoChannel.set_pathloss(pathloss_value)] *)
Definition set_pathloss (pathloss_value : option pyfloat)
  : M SuSisoChannel unit :=
  (match pathloss_value with
   | Some v =>
       if float_ltb v 0 || float_ltb 1 v
       then raise (ValueError "Pathloss must be between 0 and 1")
       else ret tt
   | None => ret tt
   end ;;;
   modify (set_pathloss_value pathloss_value))%method.

(** A call of [set_pathloss] whose argument may be omitted: the
    parameter's default is [None]. *)
Definition set_pathloss_call (arg : option (option pyfloat))
  : M SuSisoChannel unit :=
  set_pathloss (match arg with Some v => v | None => None end).

(** The tail shared by both corruption methods:
    [if self._pathloss_value is not None: output *= math.sqrt(...)]. *)
Definition apply_pathloss (output : ndarray) : M SuSisoChannel ndarray :=
  (pl <- gets _pathloss_value ;;
   match pl with
   | Some v =>
       s <- lift_result (math_sqrt_float v) ;;
       ret (array_imul output s)
   | None => ret output
   end)%method.

(** [SuSisoChannel.corrupt_data(signal)] *)
Definition corrupt_data (signal : ndarray) : M SuSisoChannel ndarray :=
  (output <- on_tdlchannel (tdl_corrupt_data signal) ;;
   apply_pathloss output)%method.

(** [SuSisoChannel.corrupt_data_in_freq_domain(signal, fft_size, carrier_indexes)] *)
Definition corrupt_data_in_freq_domain
  (signal : ndarray) (fft_size : nat) (carrier_indexes : option (list nat))
  : M SuSisoChannel ndarray :=
  (output <- on_tdlchannel
               (tdl_corrupt_data_in_freq_domain signal fft_size carrier_indexes) ;;
   apply_pathloss output)%method.

(** [SuSisoChannel.get_last_impulse_response()] *)
Definition get_last_impulse_response : M SuSisoChannel IR :=
  (pl <- gets _pathloss_value ;;
   match pl with
   | None => on_tdlchannel tdl_get_last_impulse_response
   | Some v =>
       s <- lift_result (math_sqrt_float v) ;;
       h <- on_tdlchannel tdl_get_last_impulse_response ;;
       ret (response_rmul s h)
   end)%method.

(** The states of a channel object: a method call takes the object from
    one state to the next (also when the call raises). *)
Inductive step : SuSisoChannel -> SuSisoChannel -> Prop :=
| step_set_pathloss : forall arg self,
    step self (snd (set_pathloss_call arg self))
| step_corrupt_data : forall signal self,
    step self (snd (corrupt_data signal self))
| step_corrupt_data_in_freq_domain : forall signal fft_size carrier_indexes self,
    step self (snd (corrupt_data_in_freq_domain signal fft_size carrier_indexes self))
| step_get_last_impulse_response : forall self,
    step self (snd (get_last_impulse_response self)).

(** The states an object can be in: those that follow a successful
    construction by method calls. *)
Inductive reachable : SuSisoChannel -> Prop :=
| reachable_init : forall fading_generator channel_profile
                          tap_powers_dB tap_delays Ts self,
    SuSisoChannel_init fading_generator channel_profile
                       tap_powers_dB tap_delays Ts = inr self ->
    reachable self
| reachable_step : forall self self',
    reachable self -> step self self' -> reachable self'.

(** The states that follow the state [self] by calls of the corruption
    methods and of [get_last_impulse_response], without a call of
    [set_pathloss]. *)
Inductive follows_without_set_pathloss (self : SuSisoChannel)
  : SuSisoChannel -> Prop :=
| follows_at_once : follows_without_set_pathloss self self
| follows_corrupt_data : forall signal later,
    follows_without_set_pathloss self later ->
    follows_without_set_pathloss self (snd (corrupt_data signal later))
| follows_corrupt_data_in_freq_domain :
    forall signal fft_size carrier_indexes later,
    follows_without_set_pathloss self later ->
    follows_without_set_pathloss
      self
      (snd (corrupt_data_in_freq_domain signal fft_size carrier_indexes later))
| follows_get_last_impulse_response : forall later,
    follows_without_set_pathloss self later ->
    follows_without_set_pathloss self (snd (get_last_impulse_response later)).

(** A float of the closed interval [[0, 1]]; NaN is not one. *)
Definition in_unit_interval (v : pyfloat) : Prop :=
  match v with
  | Fin x => 0 <= x <= 1
  | NaN => False
  end.

(** A float that passes the guard of [set_pathloss], for which neither
    [v < 0] nor [v > 1] holds: a number of [[0, 1]], or NaN. *)
Definition passes_guard (v : pyfloat) : Prop :=
  match v with
  | Fin x => 0 <= x <= 1
  | NaN => True
  end.

(** The pathloss state is [None] or a value that passes the guard. *)
Definition pathloss_accepted (self : SuSisoChannel) : Prop :=
  match _pathloss_value self with
  | None => True
  | Some v => passes_guard v
  end.

(** The pathloss state is [None] or a value of the half-open interval
    [(0, 1]]. *)
Definition pathloss_in_half_open_interval (self : SuSisoChannel) : Prop :=
  match _pathloss_value self with
  | None => True
  | Some (Fin v) => 0 < v <= 1
  | Some NaN => False
  end.

(** An outcome whose array, if there is one, is multiplied by [s]. *)
Definition scale_outcome (s : R) (r : exn + ndarray) : exn + ndarray :=
  match r with
  | inl e => inl e
  | inr output => inr (imul output s)
  end.

(** The pathloss tail of a corruption method, run on the outcome [r] of
    the inner call. *)
Definition with_pathloss (pl : option pyfloat) (r : exn + ndarray)
  : exn + ndarray :=
  match r, pl with
  | inl e, _ => inl e
  | inr output, None => inr output
  | inr output, Some v =>
      match math_sqrt_float v with
      | inl e => inl e
      | inr s => inr (array_imul output s)
      end
  end.

(** The outcome [r_on] is the outcome [r_off] with every element of its
    array multiplied by the real [s]: the same exception, or an array of
    the same length whose elements are those of [r_off] times [s]. *)
Definition scales_by (s : R) (r_off r_on : exn + ndarray) : Prop :=
  match r_off with
  | inl e => r_on = inl e
  | inr output =>
      exists output',
        r_on = inr output' /\
        length output' = length output /\
        forall i, nth i output' C0 =
                  mkC (s * Re (nth i output C0)) (s * Im (nth i output C0))
  end.

(** The outcome [r] of the inner channel's impulse-response query, scaled
    as the pathloss state [pl] demands: by the square root of a value,
    not at all for [None]. *)
Definition scale_response (pl : option pyfloat) (r : exn + IR) : exn + IR :=
  match r, pl with
  | inr h, Some v => inr (response_rmul (float_sqrt v) h)
  | _, _ => r
  end.

(** The outcome [r] of an inner corruption call, scaled as the pathloss
    state [pl] demands. *)
Definition scale_output (pl : option pyfloat) (r : exn + ndarray)
  : exn + ndarray :=
  match pl, r with
  | Some v, inr output => inr (array_imul output (float_sqrt v))
  | _, _ => r
  end.

End SuSiso.

Arguments SuSisoChannel : clear implicits.

(* ================================================================= *)
(** ** The channel engine of [pyphysim.channels.fading] *)

Module Fading.

(** Modelled from the spec: a fading sample generator, a missing class
    of [fading_generators]. Its state is the sample sequence of the
    process and the number of samples handed out so far;
    [generate_more_samples] continues from there. *)
Record FadingSampleGenerator : Type := mkGenerator {
  gen_samples : nat -> C;
  gen_drawn : nat
}.

Definition generate_more_samples (num_samples : nat)
  : M FadingSampleGenerator (list C) :=
  fun g =>
    (inr (map (gen_samples g) (seq (gen_drawn g) num_samples)),
     mkGenerator (gen_samples g) (gen_drawn g + num_samples)).

(** Modelled from the spec: the missing class [TdlChannelProfile], tap
    powers in dB paired index to index with tap delays. *)
Record TdlChannelProfile : Type := mkProfile {
  tap_powers_dB : list R;
  tap_delays : list R
}.

(** Modelled from the spec: the missing constructor of
    [TdlChannelProfile]. Its invariant is
    [len(tap_powers_dB) == len(tap_delays) == L >= 1], and mismatched
    lengths always fail construction. *)
Definition TdlChannelProfile_init (powers delays : list R)
  : exn + TdlChannelProfile :=
  if (length powers =? length delays)%nat && (1 <=? length powers)%nat
  then inr (mkProfile powers delays)
  else inl (ValueError "tap powers and tap delays must have the same length").

(** Modelled from the spec: the missing conversion [power = 10^(dB/10)]. *)
Definition dB2Linear (x : R) : R := Rpower 10 (x / 10).

(** Modelled from the spec: the missing class [TdlImpulseResponse], one
    realisation of the discretised response: for each tap its gain at
    each sample, the grid position of each tap, the sampling interval. *)
Record TdlImpulseResponse : Type := mkImpulseResponse {
  tap_values : list (list C);
  tap_indexes : list nat;
  sampling_interval : R
}.

Definition num_taps (h : TdlImpulseResponse) : nat := length (tap_values h).

Definition num_taps_with_padding (h : TdlImpulseResponse) : nat :=
  S (fold_right Nat.max 0%nat (tap_indexes h)).

(** Modelled from the spec: [scalar * impulse_response] scales every tap
    gain. *)
Definition rmul (s : R) (h : TdlImpulseResponse) : TdlImpulseResponse :=
  mkImpulseResponse (map (fun g => imul g s) (tap_values h))
                    (tap_indexes h) (sampling_interval h).

(** Modelled from the spec: the state of the missing class [TdlChannel]:
    profile, fading generator, sampling interval and the cache of the
    last impulse response, [None] until the first corruption. *)
Record TdlChannel : Type := mkTdlChannel {
  fading_generator : FadingSampleGenerator;
  channel_profile : TdlChannelProfile;
  Ts : option R;
  last_impulse_response : option TdlImpulseResponse
}.

(** Modelled from the spec: the missing [TdlChannel.__init__]. A profile
    comes either as [channel_profile] or as tap powers with tap delays.
    Tap arrays that are supplied are checked whenever they are supplied:
    powers without delays (or delays without powers) and arrays of
    different lengths fail construction. *)
Definition TdlChannel_init
  (args : TdlChannelArgs FadingSampleGenerator TdlChannelProfile)
  : exn + TdlChannel :=
  let build p :=
    inr (mkTdlChannel (arg_fading_generator args) p (arg_Ts args) None) in
  match arg_tap_powers_dB args, arg_tap_delays args with
  | None, None =>
      match arg_channel_profile args with
      | Some p => build p
      | None => inl (ValueError "no channel profile")
      end
  | Some powers, Some delays =>
      match TdlChannelProfile_init powers delays with
      | inl e => inl e
      | inr p =>
          match arg_channel_profile args with
          | Some p' => build p'
          | None => build p
          end
      end
  | _, _ =>
      inl (ValueError "tap powers and tap delays must be given together")
  end.

Definition set_fading_generator (g : FadingSampleGenerator) (self : TdlChannel)
  : TdlChannel :=
  mkTdlChannel g (channel_profile self) (Ts self) (last_impulse_response self).

Definition set_last_impulse_response (h : TdlImpulseResponse) (self : TdlChannel)
  : TdlChannel :=
  mkTdlChannel (fading_generator self) (channel_profile self) (Ts self) (Some h).

Definition on_fading_generator {A : Type} (m : M FadingSampleGenerator A)
  : M TdlChannel A :=
  on_attr fading_generator set_fading_generator m.

(** Modelled from the spec: a delay snapped to the sampling grid,
    [round(delay / Ts)] (the nearest grid position). *)
Definition discretize (ts delay : R) : nat := Z.to_nat (up (delay / ts - / 2)).

(** Modelled from the spec: for each tap in turn, [num_samples] fading
    samples drawn from the generator and scaled by [sqrt(linear_power)]. *)
Fixpoint draw_taps (powers : list R) (num_samples : nat)
  : M FadingSampleGenerator (list (list C)) :=
  match powers with
  | [] => ret []
  | p :: rest =>
      (g <- generate_more_samples num_samples ;;
       gs <- draw_taps rest num_samples ;;
       ret (imul g (sqrt (dB2Linear p)) :: gs))%method
  end.

(** Modelled from the spec: sample [n] of the signal convolved with a
    time-varying response: each tap contributes the sample it delays,
    weighted by the tap's gain at that sample. *)
Definition output_sample (signal : ndarray) (h : TdlImpulseResponse) (n : nat)
  : C :=
  Csum (map (fun '(d, g) =>
               if (d <=? n)%nat
               then Cmul (nth (n - d) g C0) (nth (n - d) signal C0)
               else C0)
            (combine (tap_indexes h) (tap_values h))).

Definition convolve (signal : ndarray) (h : TdlImpulseResponse) : ndarray :=
  map (output_sample signal h)
      (seq 0 (length signal + (num_taps_with_padding h - 1))).

(** Modelled from the spec: the missing [TdlChannel.corrupt_data]. *)
Definition corrupt_data (signal : ndarray) : M TdlChannel ndarray :=
  (sampling <- gets Ts ;;
   match sampling with
   | None => raise (ValueError "the profile cannot be discretized without Ts")
   | Some ts =>
       profile <- gets channel_profile ;;
       gains <- on_fading_generator
                  (draw_taps (tap_powers_dB profile) (length signal)) ;;
       let h := mkImpulseResponse
                  gains (map (discretize ts) (tap_delays profile)) ts in
       (modify (set_last_impulse_response h) ;;;
        ret (convolve signal h))
   end)%method.

Definition cis (theta : R) : C := mkC (cos theta) (sin theta).

(** Modelled from the spec: bin [k] of the discrete Fourier transform of
    the response held during block [block], zero-padded to [fft_size]. *)
Definition freq_response
  (fft_size : nat) (h : TdlImpulseResponse) (block k : nat) : C :=
  Csum (map (fun '(d, g) =>
               Cmul (nth block g C0)
                    (cis (- (2 * PI * INR k * INR d / INR fft_size))))
            (combine (tap_indexes h) (tap_values h))).

(** Modelled from the spec: the missing
    [TdlChannel.corrupt_data_in_freq_domain]: the channel is held during
    each block of samples (one sample per carrier), with one generator
    draw per tap and block. *)
Definition corrupt_data_in_freq_domain
  (signal : ndarray) (fft_size : nat) (carrier_indexes : option (list nat))
  : M TdlChannel ndarray :=
  (sampling <- gets Ts ;;
   match sampling with
   | None => raise (ValueError "the profile cannot be discretized without Ts")
   | Some ts =>
       profile <- gets channel_profile ;;
       let positions := map (discretize ts) (tap_delays profile) in
       let carriers :=
         match carrier_indexes with
         | Some c => c
         | None => seq 0 fft_size
         end in
       let K := length carriers in
       if (fft_size <=? fold_right Nat.max 0%nat positions)%nat
       then raise (ValueError "fft_size is smaller than the impulse response")
       else if existsb (fun k => (fft_size <=? k)%nat) carriers || (K =? 0)%nat
       then raise (ValueError "invalid carrier indexes")
       else
         gains <- on_fading_generator
                    (draw_taps (tap_powers_dB profile)
                               ((length signal + K - 1) / K)) ;;
         let h := mkImpulseResponse gains positions ts in
         (modify (set_last_impulse_response h) ;;;
          ret (map (fun '(n, x) =>
                      Cmul x (freq_response fft_size h (n / K)
                                            (nth (n mod K) carriers 0%nat)))
                   (combine (seq 0 (length signal)) signal)))
   end)%method.

(** Modelled from the spec: the missing
    [TdlChannel.get_last_impulse_response], an explicit failure before
    the first corruption. *)
Definition get_last_impulse_response : M TdlChannel TdlImpulseResponse :=
  (cache <- gets last_impulse_response ;;
   match cache with
   | Some h => ret h
   | None => raise (Exception "no impulse response is available")
   end)%method.

(** The engine as an instance of the interface used by the facade. The
    Rayleigh generator hands out the samples [rayleigh], the draws of the
    process-wide random source. *)
Definition ops (rayleigh : nat -> C)
  : TdlChannelOps FadingSampleGenerator TdlChannelProfile
                  TdlChannel TdlImpulseResponse :=
  {| RayleighSampleGenerator := mkGenerator rayleigh 0;
     TdlChannel_new := TdlChannel_init;
     tdl_corrupt_data := corrupt_data;
     tdl_corrupt_data_in_freq_domain := corrupt_data_in_freq_domain;
     tdl_get_last_impulse_response := get_last_impulse_response;
     ir_rmul := rmul |}.

End Fading.

(* ================================================================= *)
(** ** [randn_c] of [util/misc.py] *)

Module Misc.

(** An N-dimensional numpy array: its shape and its elements in row-major
    order. The shape [[]] is that of a scalar. *)
Record array (A : Type) : Type := mkArray {
  shape : list nat;
  data : list A
}.

(** Number of elements of an array of the given shape. *)
Definition size (dims : list nat) : nat := fold_right Nat.mul 1%nat dims.

Section Randn.

(** The draws of numpy's process-wide random source, in the order in
    which they are handed out; the state of the source is the number of
    draws made so far. *)
Variable normal : nat -> R.

(** [np.random.randn], called with the dimensions [args] *)
Definition np_random_randn (args : list nat) : M nat (array R) :=
  fun drawn =>
    (inr (mkArray args (map normal (seq drawn (size args)))),
     (drawn + size args)%nat).

(** [randn_c], called with the dimensions [args]: the scalar factor is evaluated first, then the two
    calls of [np.random.randn] from left to right. *)
Definition randn_c (args : list nat) : M nat (array C) :=
  (s <- lift_result (math_sqrt 2) ;;
   x <- np_random_randn args ;;
   y <- np_random_randn args ;;
   let jy := map (fun b => Cmul Cj (RtoC b)) (data y) in
   let sum := map (fun '(a, z) => Cadd (RtoC a) z) (combine (data x) jy) in
   ret (mkArray (shape x) (imul sum (1 / s))))%method.

End Randn.

(** [xor(a, b)], that is [(a).__xor__(b)] on Python ints. *)
Definition xor (a b : Z) : Z := Z.lxor a b.

(** The loop of [int2bits], [while n: n >>= 1; bits += 1], run for at
    most [fuel] tests of its condition; [None] when the fuel runs out. *)
Fixpoint int2bits_loop (fuel : nat) (n bits : Z) : option Z :=
  match fuel with
  | O => None
  | S fuel' =>
      if (n =? 0)%Z then Some bits
      else int2bits_loop fuel' (Z.shiftr n 1) (bits + 1)%Z
  end.

(** [int2bits(n)] *)
Definition int2bits (fuel : nat) (n : Z) : option (exn + Z) :=
  if (n <? 0)%Z
  then Some (inl (ValueError "int2bits: n must be greater then zero"))
  else if (n =? 0)%Z then Some (inr 1%Z)
  else option_map inr (int2bits_loop fuel n 0%Z).

(** [level2bits(n)] *)
Definition level2bits (fuel : nat) (n : Z) : option (exn + Z) :=
  if (n <? 1)%Z
  then Some (inl (ValueError "level2bits: n must be greater then one"))
  else int2bits fuel (n - 1)%Z.

(** The loop of [_count_bits_single_element],
    [while n > 0: if n & 1 == 1: count += 1; n >>= 1]. In the test [&]
    binds tighter than the comparison: Python reads [(n & 1) == 1]. *)
Fixpoint count_bits_loop (fuel : nat) (n count : Z) : option Z :=
  match fuel with
  | O => None
  | S fuel' =>
      if (0 <? n)%Z
      then count_bits_loop
             fuel' (Z.shiftr n 1)
             (if (Z.land n 1 =? 1)%Z then count + 1 else count)%Z
      else Some count
  end.

(** [_count_bits_single_element(n)] *)
Definition _count_bits_single_element (fuel : nat) (n : Z) : option Z :=
  count_bits_loop fuel n 0%Z.

(** A Python number, as [pretty_time] may receive it: an int or a float. *)
Inductive pynum : Type :=
| PyInt (z : Z)
| PyFloat (x : R).

(** [float(t)] *)
Definition py_float (t : pynum) : R :=
  match t with
  | PyInt z => IZR z
  | PyFloat x => x
  end.

(** [int(t)]: a float is truncated towards zero. *)
Definition py_int (t : pynum) : Z :=
  match t with
  | PyInt z => z
  | PyFloat x => if Rltb x 0 then (- Int_part (- x))%Z else Int_part x
  end.

(** [t % 60]: the result has the sign of the divisor, for ints and for
    floats. *)
Definition py_mod_60 (t : pynum) : pynum :=
  match t with
  | PyInt z => PyInt (z mod 60)
  | PyFloat x => PyFloat (x - 60 * IZR (Int_part (x / 60)))
  end.

(** [int(round(t))]: Python 2 rounds to the nearest integer, a half away
    from zero. *)
Definition py_int_round (t : pynum) : Z :=
  match t with
  | PyInt z => z
  | PyFloat x =>
      if Rltb x 0 then (- Int_part (- x + / 2))%Z else Int_part (x + / 2)
  end.

(** [str(z)] for an int, as ["%s" % z] writes it. *)
Definition str (z : Z) : string := NilZero.string_of_int (Z.to_int z).

Section PrettyTime.

(** ["%.2f" % x], the float [x] written with two decimals. *)
Variable format_2f : R -> string.

(** [pretty_time(time_in_seconds)], with the division of ints of
    Python 2, which rounds down. *)
Definition pretty_time (time_in_seconds : pynum) : string :=
  let seconds := time_in_seconds in
  let minutes := (py_int seconds / 60)%Z in
  let seconds := py_int_round (py_mod_60 seconds) in
  let hours := (minutes / 60)%Z in
  let minutes := (minutes mod 60)%Z in
  if (0 <? hours)%Z
  then (str hours ++ "h:" ++ str minutes ++ "m:" ++ str seconds ++ "s")%string
  else if (0 <? minutes)%Z
  then (str minutes ++ "m:" ++ str seconds ++ "s")%string
  else (format_2f (py_float time_in_seconds) ++ "s")%string.

End PrettyTime.

(** The sum of the elements of a real array. *)
Definition Rsum (l : list R) : R := fold_right Rplus 0 l.

(** [np.correlate(a, v, 'full')] on real arrays. Entry [m] is the
    correlation [c_k = sum_n a[n + k] * v[n]] at the lag
    [k = m - (len(v) - 1)], where an index outside [a] contributes
    nothing; numpy refuses empty arrays. *)
Definition np_correlate_full (a v : list R) : exn + list R :=
  match a, v with
  | [], _ => inl (ValueError "first array argument cannot be empty")
  | _, [] => inl (ValueError "second array argument cannot be empty")
  | _, _ =>
      inr (map (fun m =>
                  Rsum (map (fun n =>
                               if (length v - 1 <=? n + m)%nat
                               then nth (n + m - (length v - 1)) a 0
                                    * nth n v 0
                               else 0)
                            (seq 0 (length v))))
               (seq 0 (length a + length v - 1)))
  end.

(** [calc_unorm_autocorr(x)]: [R[R.size / 2:]], with the division of
    ints of Python 2. *)
Definition calc_unorm_autocorr (x : list R) : exn + list R :=
  match np_correlate_full x x with
  | inl e => inl e
  | inr R => inr (skipn (length R / 2) R)
  end.

(** [np.mean(x)] *)
Definition np_mean (x : list R) : R := Rsum x / INR (length x).

(** [np.var(x)], the biased variance: the mean of the squared distances
    to the mean. *)
Definition np_var (x : list R) : R :=
  np_mean (map (fun a => (a - np_mean x) * (a - np_mean x)) x).

(** [calc_autocorr(x)] *)
Definition calc_autocorr (x : list R) : exn + list R :=
  let x2 := map (fun a => a - np_mean x) x in
  let variance := np_var x2 in
  match calc_unorm_autocorr x2 with
  | inl e => inl e
  | inr r => inr (map (fun c => c / (INR (length x2) * variance)) r)
  end.

(** A two-dimensional numpy array: its shape and its entries. *)
Record matrix : Type := mkMatrix {
  nrows : nat;
  ncols : nat;
  entry : nat -> nat -> C
}.

Definition Cconj (z : C) : C := mkC (Re z) (- Im z).

(** [M.conjugate().transpose()] *)
Definition conjugate_transpose (M : matrix) : matrix :=
  mkMatrix (ncols M) (nrows M) (fun i j => Cconj (entry M j i)).

(** [M[:, indexes]] for a list of indexes that are not negative: the
    columns of [M] at these indexes, an [IndexError] (written
    [Exception]) when one of them is out of bounds. *)
Definition take_columns (M : matrix) (indexes : list nat) : exn + matrix :=
  if forallb (fun j => (j <? ncols M)%nat) indexes
  then inr (mkMatrix (nrows M) (length indexes)
                     (fun i j => entry M i (nth j indexes 0%nat)))
  else inl (Exception "IndexError: index is out of bounds").

(** [s[indexes]] for a one-dimensional array [s]. *)
Definition take (s : list R) (indexes : list nat) : exn + list R :=
  if forallb (fun j => (j <? length s)%nat) indexes
  then inr (map (fun j => nth j s 0) indexes)
  else inl (Exception "IndexError: index is out of bounds").

Section SingularVectors.

(** [np.linalg.svd(A, full_matrices=True)]: the matrix [U], the singular
    values [S] (here [Sv]) and the matrix [V_H]. *)
Variable np_linalg_svd : matrix -> matrix * list R * matrix.

(** [least_right_singular_vectors(A, n)], for a number [n] that is not
    negative. *)
Definition least_right_singular_vectors (A : matrix) (n : nat)
  : exn + (matrix * matrix * list R) :=
  let '(_, Sv, V_H) := np_linalg_svd A in
  let V := conjugate_transpose V_H in
  let sort_indexes := rev (seq 0 (nrows V)) in
  match take_columns V (firstn n sort_indexes) with
  | inl e => inl e
  | inr V0 =>
      match take_columns V (skipn n sort_indexes) with
      | inl e => inl e
      | inr V1 =>
          match take Sv (skipn n sort_indexes) with
          | inl e => inl e
          | inr S1 => inr (V0, V1, S1)
          end
      end
  end.

End SingularVectors.

(** [d[indexes]] for a one-dimensional complex array [d]. *)
Definition take_complex (d : list C) (indexes : list nat) : exn + list C :=
  if forallb (fun j => (j <? length d)%nat) indexes
  then inr (map (fun j => nth j d C0) indexes)
  else inl (Exception "IndexError: index is out of bounds").

Section Eigenvectors.

(** [np.linalg.eig(A)]: the eigenvalues [D] and the matrix [V] whose
    columns are the eigenvectors, or the exception it raises (a
    [LinAlgError] on a matrix that is not square, or when the
    computation does not converge). *)
Variable np_linalg_eig : matrix -> exn + (list C * matrix).

(** [np.argsort(a)]: the indexes that sort the real array [a]. *)
Variable np_argsort : list R -> list nat.

(** [peig(A, n)], for a number [n] that is not negative. *)
Definition peig (A : matrix) (n : nat) : exn + (matrix * list C) :=
  if (ncols A <? n)%nat
  then inl (ValueError
              "`n` must be lower then the number of columns in `A`")
  else
    match np_linalg_eig A with
    | inl e => inl e
    | inr (D, V) =>
        let indexes := np_argsort (map Re D) in
        let indexes := rev indexes in
        match take_columns V (firstn n indexes) with
        | inl e => inl e
        | inr V' =>
            match take_complex D (firstn n indexes) with
            | inl e => inl e
            | inr D' => inr (V', D')
            end
        end
    end.

(** [leig(A, n)], for a number [n] that is not negative. *)
Definition leig (A : matrix) (n : nat) : exn + (matrix * list C) :=
  if (ncols A <? n)%nat
  then inl (ValueError
              "`n` must be lower then the number of columns in `A`")
  else
    match np_linalg_eig A with
    | inl e => inl e
    | inr (D, V) =>
        let indexes := np_argsort (map Re D) in
        match take_columns V (firstn n indexes) with
        | inl e => inl e
        | inr V' =>
            match take_complex D (firstn n indexes) with
            | inl e => inl e
            | inr D' => inr (V', D')
            end
        end
    end.

End Eigenvectors.

End Misc.

(* ================================================================= *)
(** ** Binary digits *)

(** The number of positions below [k] at which the binary writing of [n]
    has a 1. *)
Definition ones_below (k : nat) (n : Z) : Z :=
  Z.of_nat (length (filter (Z.testbit n) (map Z.of_nat (seq 0 k)))).

(** The sum [f 0 + ... + f (N - 1)]. *)
Definition sum_upto (f : nat -> R) (N : nat) : R :=
  Misc.Rsum (map f (seq 0 N)).

(** The product of the samples of [x] that are [k] places apart, summed
    over the array: the autocorrelation of [x] at the lag [k]. *)
Definition lag_product (x : list R) (k : nat) : R :=
  sum_upto (fun n => nth (n + k) x 0 * nth n x 0) (length x).

(** The identity matrix of size 2, and two decompositions that have it as
    [V_H]: one with two singular values, as for a square matrix, and one
    with a single singular value, as for a matrix of one row and two
    columns. *)
Definition identity_2 : Misc.matrix :=
  Misc.mkMatrix 2 2 (fun i j => if (i =? j)%nat then mkC 1 0 else C0).

Definition svd_square (A : Misc.matrix) : Misc.matrix * list R * Misc.matrix :=
  (identity_2, [3; 1], identity_2).

Definition svd_wide (A : Misc.matrix) : Misc.matrix * list R * Misc.matrix :=
  (Misc.mkMatrix 1 1 (fun _ _ => mkC 1 0), [5], identity_2).

(** What [np.argsort] promises of its result [indexes] on the array [a]:
    a permutation of the positions [0 .. len(a) - 1] of [a], each
    position once, that lists the elements of [a] in increasing order. *)
Definition sorts (a : list R) (indexes : list nat) : Prop :=
  Permutation indexes (seq 0 (length a)) /\
  (forall p q, (p <= q < length a)%nat ->
               nth (nth p indexes 0%nat) a 0 <= nth (nth q indexes 0%nat) a 0).

(** A decomposition that refuses a matrix that is not square, as
    [np.linalg.eig] does, and gives every square matrix the eigenvalues
    3 and 1 with the identity as eigenvectors; and the indexes that sort
    these eigenvalues. *)
Definition eig_example (A : Misc.matrix) : exn + (list C * Misc.matrix) :=
  if (Misc.nrows A =? Misc.ncols A)%nat
  then inr ([mkC 3 0; mkC 1 0], identity_2)
  else inl (Exception
              "LinAlgError: Last 2 dimensions of the array must be square").

(** A matrix of one row and two columns. *)
Definition row_matrix : Misc.matrix :=
  Misc.mkMatrix 1 2 (fun _ _ => mkC 1 0).

Definition argsort_example (a : list R) : list nat := [1%nat; 0%nat].

(* ================================================================= *)
(** ** Expectations of random draws *)

(** An expectation over the outcomes [Omega] of the random source: a
    normalised linear functional on real random variables. *)
Record Expectation (Omega : Type) : Type := mkExpectation {
  expect :> (Omega -> R) -> R;
  expect_ext : forall X Y, (forall w, X w = Y w) -> expect X = expect Y;
  expect_plus : forall X Y,
    expect (fun w => X w + Y w) = expect X + expect Y;
  expect_scal : forall c X, expect (fun w => c * X w) = c * expect X;
  expect_one : expect (fun _ => 1) = 1
}.

Definition variance {Omega : Type} (E : Expectation Omega) (X : Omega -> R) : R :=
  E (fun w => (X w - E X) * (X w - E X)).

(** Zero mean and unit variance, the two moments of a standard normal
    variable. *)
Definition standard {Omega : Type} (E : Expectation Omega) (X : Omega -> R)
  : Prop :=
  E X = 0 /\ variance E X = 1.

(** Independence, as the factorisation of the expectation of products of
    functions of the two variables. *)
Definition independent {Omega : Type} (E : Expectation Omega)
  (X Y : Omega -> R) : Prop :=
  forall f g : R -> R,
    E (fun w => f (X w) * g (Y w)) = E (fun w => f (X w)) * E (fun w => g (Y w)).

(** The fair toss of two coins: outcomes, expectation, and two draws
    that take the values [1] and [-1]. *)
Definition coin (b : bool) : R := if b then 1 else -1.

Definition two_coins_mean (X : bool * bool -> R) : R :=
  (X (true, true) + X (true, false) + X (false, true) + X (false, false)) / 4.

Definition two_coins_draws (w : bool * bool) (k : nat) : R :=
  match k with
  | O => coin (fst w)
  | S O => coin (snd w)
  | _ => 0
  end.

(* ================================================================= *)
(** ** Construction with tap arrays, and concrete channels *)

(** Tap powers and tap delays that do not pair up: one of them is missing,
    or their lengths differ. *)
Definition taps_mismatch (powers delays : option (list R)) : Prop :=
  match powers, delays with
  | Some p, Some d => length p <> length d
  | Some _, None => True
  | None, Some _ => True
  | None, None => False
  end.

(** A fading process whose every sample is [1 + 0j]. *)
Definition unit_samples : nat -> C := fun _ => mkC 1 0.

(** The engine whose Rayleigh generator hands out [unit_samples]. *)
Definition unit_ops
  : TdlChannelOps Fading.FadingSampleGenerator Fading.TdlChannelProfile
                  Fading.TdlChannel Fading.TdlImpulseResponse :=
  Fading.ops unit_samples.

(** The channels over that engine are never multiplied by a NaN pathloss
    below: the products by NaN are not formed on them, and are read as
    the operand. *)
Definition no_nan_products : NaNProducts Fading.TdlImpulseResponse :=
  {| nan_filled := fun output => output;
     nan_filled_length := fun output => eq_refl;
     nan_response := fun impulse_response => impulse_response |}.

#[local] Existing Instance no_nan_products.

(** The object that [SuSisoChannel()] builds over that engine. *)
Definition flat_channel : SuSisoChannel Fading.TdlChannel :=
  mkSuSisoChannel
    (Fading.mkTdlChannel (Fading.mkGenerator unit_samples 0)
                         (Fading.mkProfile [0] [0]) (Some 1) None)
    None.

(* ================================================================= *)
(** ** Properties of numbers, arrays and methods *)

Lemma Rltb_true (x y : R) : Rltb x y = true <-> x < y.
Proof.
  unfold Rltb. destruct (Rlt_dec x y); split; intros; try easy; lra.
Qed.

Lemma Rltb_false (x y : R) : Rltb x y = false <-> y <= x.
Proof.
  unfold Rltb. destruct (Rlt_dec x y); split; intros; try easy; lra.
Qed.

Lemma math_sqrt_nonneg (x : R) : 0 <= x -> math_sqrt x = inr (sqrt x).
Proof.
  intros Hx. unfold math_sqrt.
  replace (Rltb x 0) with false; [reflexivity|].
  symmetry. now apply Rltb_false.
Qed.

Lemma Cscale_components (s : R) (z : C) :
  Cscale s z = mkC (s * Re z) (s * Im z).
Proof.
  unfold Cscale, Cmul, RtoC. cbn. f_equal; ring.
Qed.

Lemma Cscale_C0 (s : R) : Cscale s C0 = C0.
Proof.
  rewrite Cscale_components. unfold C0. cbn. f_equal; ring.
Qed.

Lemma imul_length (a : ndarray) (s : R) : length (imul a s) = length a.
Proof. unfold imul. apply length_map. Qed.

(** Multiplication of an array by a scalar is elementwise. *)
Lemma imul_nth (a : ndarray) (s : R) (i : nat) :
  nth i (imul a s) C0 = mkC (s * Re (nth i a C0)) (s * Im (nth i a C0)).
Proof.
  unfold imul. rewrite <- Cscale_components.
  rewrite <- (Cscale_C0 s) at 1. apply map_nth.
Qed.

(* ================================================================= *)
(** ** Properties of [SuSisoChannel] *)

Section SuSisoProperties.

Context {Gen Profile Tdl IR : Type}.
Context {ops : TdlChannelOps Gen Profile Tdl IR}.
Context {nan_products : NaNProducts IR}.

Implicit Types (self : SuSisoChannel Tdl) (signal : ndarray) (v : R).

Lemma set_pathloss_eq (pathloss_value : option pyfloat) self :
  set_pathloss pathloss_value self =
  match pathloss_value with
  | Some v =>
      if float_ltb v 0 || float_ltb 1 v
      then (inl (ValueError "Pathloss must be between 0 and 1"), self)
      else (inr tt, set_pathloss_value pathloss_value self)
  | None => (inr tt, set_pathloss_value None self)
  end.
Proof.
  unfold set_pathloss, bind, modify, raise, ret.
  destruct pathloss_value as [v|]; [|reflexivity].
  destruct (float_ltb v 0 || float_ltb 1 v); reflexivity.
Qed.

Lemma out_of_range_iff v :
  float_ltb v 0 || float_ltb 1 v = true <-> ~ (0 <= v <= 1).
Proof.
  cbn [float_ltb]. rewrite orb_true_iff, !Rltb_true. lra.
Qed.

Lemma in_range_iff v :
  float_ltb v 0 || float_ltb 1 v = false <-> 0 <= v <= 1.
Proof.
  cbn [float_ltb]. rewrite orb_false_iff, !Rltb_false. lra.
Qed.

(** The guard of [set_pathloss] lets a float through exactly when it is a
    number of [[0, 1]] or NaN. *)
Lemma guard_false_iff (x : pyfloat) :
  float_ltb x 0 || float_ltb 1 x = false <-> passes_guard x.
Proof.
  destruct x as [r|]; [apply in_range_iff|]. cbn. tauto.
Qed.

(** The guard fires exactly on the numbers below 0 or above 1. *)
Lemma guard_true_iff (x : pyfloat) :
  float_ltb x 0 || float_ltb 1 x = true
  <-> exists r : R, x = Fin r /\ (r < 0 \/ 1 < r).
Proof.
  destruct x as [r|].
  - rewrite out_of_range_iff. split.
    + intros H. exists r. split; [reflexivity|lra].
    + intros (r' & [= <-] & H). lra.
  - cbn. split; [discriminate|]. intros (r & H & _). discriminate.
Qed.

Lemma set_pathloss_in_range v self :
  0 <= v <= 1 ->
  set_pathloss (Some (Fin v)) self
  = (inr tt, set_pathloss_value (Some (Fin v)) self).
Proof.
  intros Hv. rewrite set_pathloss_eq.
  apply in_range_iff in Hv. now rewrite Hv.
Qed.

Lemma math_sqrt_float_accepted (x : pyfloat) :
  passes_guard x -> math_sqrt_float x = inr (float_sqrt x).
Proof.
  destruct x as [r|]; cbn; [|reflexivity].
  intros Hr. now rewrite math_sqrt_nonneg by lra.
Qed.

Lemma corrupt_data_eq signal self :
  corrupt_data signal self =
  (with_pathloss (_pathloss_value self)
                 (fst (tdl_corrupt_data signal (_tdlchannel self))),
   set_tdlchannel (snd (tdl_corrupt_data signal (_tdlchannel self))) self).
Proof.
  unfold corrupt_data, apply_pathloss, on_tdlchannel, on_attr, bind, gets,
    lift_result, ret, with_pathloss.
  destruct (tdl_corrupt_data signal (_tdlchannel self)) as [[e|output] t'];
    cbn; [reflexivity|].
  destruct (_pathloss_value self) as [x|]; [|reflexivity].
  destruct (math_sqrt_float x); reflexivity.
Qed.

Lemma corrupt_data_in_freq_domain_eq signal fft_size carrier_indexes self :
  corrupt_data_in_freq_domain signal fft_size carrier_indexes self =
  (with_pathloss
     (_pathloss_value self)
     (fst (tdl_corrupt_data_in_freq_domain signal fft_size carrier_indexes
                                           (_tdlchannel self))),
   set_tdlchannel
     (snd (tdl_corrupt_data_in_freq_domain signal fft_size carrier_indexes
                                           (_tdlchannel self))) self).
Proof.
  unfold corrupt_data_in_freq_domain, apply_pathloss, on_tdlchannel, on_attr,
    bind, gets, lift_result, ret, with_pathloss.
  destruct (tdl_corrupt_data_in_freq_domain signal fft_size carrier_indexes
                                            (_tdlchannel self))
    as [[e|output] t']; cbn; [reflexivity|].
  destruct (_pathloss_value self) as [x|]; [|reflexivity].
  destruct (math_sqrt_float x); reflexivity.
Qed.

Lemma get_last_impulse_response_eq self :
  get_last_impulse_response self =
  match _pathloss_value self with
  | None =>
      (fst (tdl_get_last_impulse_response (_tdlchannel self)),
       set_tdlchannel (snd (tdl_get_last_impulse_response (_tdlchannel self)))
                      self)
  | Some x =>
      match math_sqrt_float x with
      | inl e => (inl e, self)
      | inr s =>
          (match fst (tdl_get_last_impulse_response (_tdlchannel self)) with
           | inl e => inl e
           | inr h => inr (response_rmul s h)
           end,
           set_tdlchannel
             (snd (tdl_get_last_impulse_response (_tdlchannel self))) self)
      end
  end.
Proof.
  unfold get_last_impulse_response, on_tdlchannel, on_attr, bind, gets,
    lift_result, ret.
  destruct (_pathloss_value self) as [x|].
  - destruct (math_sqrt_float x); [reflexivity|].
    destruct (tdl_get_last_impulse_response (_tdlchannel self)) as [[e|h] t'];
      reflexivity.
  - destruct (tdl_get_last_impulse_response (_tdlchannel self)) as [[e|h] t'];
      reflexivity.
Qed.

Lemma with_pathloss_in_range v (r : exn + ndarray) :
  0 <= v -> with_pathloss (Some (Fin v)) r = scale_outcome (sqrt v) r.
Proof.
  intros Hv. unfold with_pathloss, scale_outcome.
  destruct r; [reflexivity|]. cbn [math_sqrt_float].
  now rewrite math_sqrt_nonneg.
Qed.

Lemma with_pathloss_None (r : exn + ndarray) : with_pathloss None r = r.
Proof. destruct r; reflexivity. Qed.

Lemma scale_outcome_scales_by (s : R) (r : exn + ndarray) :
  scales_by s r (scale_outcome s r).
Proof.
  destruct r as [e|output]; cbn; [reflexivity|].
  exists (imul output s). split; [reflexivity|]. split.
  - apply imul_length.
  - intros i. apply imul_nth.
Qed.

(** C1: once a pathloss [v] of [[0, 1]] has been set with [set_pathloss],
    [corrupt_data] and [corrupt_data_in_freq_domain] return what the same
    call returns with the pathloss disabled (same state of the inner
    channel, hence the same fading samples), every element multiplied by
    [sqrt v]; with the pathloss disabled they return the outcome of the
    inner channel unchanged. *)
Theorem corrupt_data_scaled_by_sqrt_pathloss self signal v :
  0 <= v <= 1 ->
  let on := snd (set_pathloss (Some (Fin v)) self) in
  let off := snd (set_pathloss None self) in
  fst (set_pathloss (Some (Fin v)) self) = inr tt /\
  fst (set_pathloss None self) = inr tt /\
  (fst (corrupt_data signal off)
   = fst (tdl_corrupt_data signal (_tdlchannel self)) /\
   scales_by (sqrt v) (fst (corrupt_data signal off))
                      (fst (corrupt_data signal on)) /\
   _tdlchannel (snd (corrupt_data signal on))
   = _tdlchannel (snd (corrupt_data signal off))) /\
  (forall fft_size carrier_indexes,
     fst (corrupt_data_in_freq_domain signal fft_size carrier_indexes off)
     = fst (tdl_corrupt_data_in_freq_domain signal fft_size carrier_indexes
                                            (_tdlchannel self)) /\
     scales_by
       (sqrt v)
       (fst (corrupt_data_in_freq_domain signal fft_size carrier_indexes off))
       (fst (corrupt_data_in_freq_domain signal fft_size carrier_indexes on)) /\
     _tdlchannel
       (snd (corrupt_data_in_freq_domain signal fft_size carrier_indexes on))
     = _tdlchannel
         (snd (corrupt_data_in_freq_domain signal fft_size carrier_indexes off))).
Proof.
  intros Hv on off. subst on off.
  rewrite set_pathloss_in_range by exact Hv.
  rewrite set_pathloss_eq. cbn [fst snd].
  assert (H0 : 0 <= v) by lra.
  repeat split.
  - rewrite corrupt_data_eq. cbn. apply with_pathloss_None.
  - rewrite !corrupt_data_eq. cbn.
    rewrite with_pathloss_None, with_pathloss_in_range by exact H0.
    apply scale_outcome_scales_by.
  - rewrite !corrupt_data_eq. reflexivity.
  - rewrite corrupt_data_in_freq_domain_eq. cbn. apply with_pathloss_None.
  - rewrite !corrupt_data_in_freq_domain_eq. cbn.
    rewrite with_pathloss_None, with_pathloss_in_range by exact H0.
    apply scale_outcome_scales_by.
  - rewrite !corrupt_data_in_freq_domain_eq. reflexivity.
Qed.

(** C2, as amended: [set_pathloss(v)] raises a [ValueError] exactly when
    [v] is a number with [v < 0] or [v > 1]; when it raises, the object
    is left as it was; otherwise the value is stored. [None], [0] and [1]
    are accepted, and so is NaN, for which both comparisons of the guard
    are False. *)
Theorem set_pathloss_raises_iff_out_of_range
  (pathloss_value : option pyfloat) self :
  (fst (set_pathloss pathloss_value self)
   = inl (ValueError "Pathloss must be between 0 and 1")
   <-> exists v : R, pathloss_value = Some (Fin v) /\ (v < 0 \/ 1 < v)) /\
  (forall e, fst (set_pathloss pathloss_value self) = inl e ->
             e = ValueError "Pathloss must be between 0 and 1" /\
             snd (set_pathloss pathloss_value self) = self) /\
  (fst (set_pathloss pathloss_value self) = inr tt ->
   snd (set_pathloss pathloss_value self)
   = set_pathloss_value pathloss_value self) /\
  set_pathloss None self = (inr tt, set_pathloss_value None self) /\
  set_pathloss (Some (Fin 0)) self
  = (inr tt, set_pathloss_value (Some (Fin 0)) self) /\
  set_pathloss (Some (Fin 1)) self
  = (inr tt, set_pathloss_value (Some (Fin 1)) self) /\
  set_pathloss (Some NaN) self = (inr tt, set_pathloss_value (Some NaN) self).
Proof.
  split; [split|split; [|split; [|split; [|split; [|split]]]]].
  - rewrite set_pathloss_eq. destruct pathloss_value as [x|]; [|discriminate].
    destruct (float_ltb x 0 || float_ltb 1 x) eqn:E; [|discriminate].
    intros _. apply guard_true_iff in E. destruct E as (r & -> & Hr).
    exists r. split; [reflexivity|exact Hr].
  - intros (v & -> & Hv). rewrite set_pathloss_eq.
    assert (E : float_ltb v 0 || float_ltb 1 v = true).
    { apply guard_true_iff. exists v. split; [reflexivity|exact Hv]. }
    now rewrite E.
  - intros e. rewrite set_pathloss_eq.
    destruct pathloss_value as [x|]; [|discriminate].
    destruct (float_ltb x 0 || float_ltb 1 x); cbn; [|discriminate].
    intros [= <-]. split; reflexivity.
  - rewrite set_pathloss_eq. destruct pathloss_value as [x|]; [|reflexivity].
    destruct (float_ltb x 0 || float_ltb 1 x); [discriminate|reflexivity].
  - apply set_pathloss_eq.
  - apply set_pathloss_in_range. lra.
  - apply set_pathloss_in_range. lra.
  - apply set_pathloss_eq.
Qed.

Lemma step_pathloss_accepted self self' :
  step self self' -> pathloss_accepted self -> pathloss_accepted self'.
Proof.
  intros Hstep Hinv. destruct Hstep as [arg self|signal self|signal n c self|self].
  - unfold set_pathloss_call. rewrite set_pathloss_eq.
    destruct arg as [[x|]|]; try exact I.
    destruct (float_ltb x 0 || float_ltb 1 x) eqn:E; [exact Hinv|].
    apply guard_false_iff in E. exact E.
  - rewrite corrupt_data_eq. exact Hinv.
  - rewrite corrupt_data_in_freq_domain_eq. exact Hinv.
  - rewrite get_last_impulse_response_eq.
    destruct (_pathloss_value self) as [x|] eqn:E.
    + destruct (math_sqrt_float x); cbn; [exact Hinv|].
      unfold pathloss_accepted in *. cbn. now rewrite E in *.
    + unfold pathloss_accepted in *. cbn. now rewrite E.
Qed.

Lemma reachable_pathloss_accepted self :
  reachable self -> pathloss_accepted self.
Proof.
  induction 1 as [g p tp td ts self Hinit|self self' _ IH Hstep].
  - unfold SuSisoChannel_init in Hinit.
    destruct (TdlChannel_new _); inversion Hinit. exact I.
  - now apply (step_pathloss_accepted Hstep).
Qed.

(** C5, as amended: in every state of a channel object the pathloss is
    [None] or a value that passes the guard of [set_pathloss]: a number
    of the closed interval [[0, 1]], or NaN. The value [0] is accepted,
    [set_pathloss(0)] succeeds and stores it, and so is NaN. *)
Theorem pathloss_state_invariant self :
  reachable self ->
  match _pathloss_value self with
  | None => True
  | Some (Fin v) => 0 <= v <= 1
  | Some NaN => True
  end /\
  (fst (set_pathloss (Some (Fin 0)) self) = inr tt /\
   reachable (snd (set_pathloss (Some (Fin 0)) self)) /\
   _pathloss_value (snd (set_pathloss (Some (Fin 0)) self)) = Some (Fin 0)) /\
  (fst (set_pathloss (Some NaN) self) = inr tt /\
   reachable (snd (set_pathloss (Some NaN) self)) /\
   _pathloss_value (snd (set_pathloss (Some NaN) self)) = Some NaN).
Proof.
  intros Hreach. split; [|split; split; [|split| |split]].
  - pose proof (reachable_pathloss_accepted Hreach) as H.
    unfold pathloss_accepted in H.
    destruct (_pathloss_value self) as [[v|]|]; [exact H|exact I|exact I].
  - rewrite set_pathloss_in_range by lra. reflexivity.
  - exact (reachable_step Hreach
             (step_set_pathloss (Some (Some (Fin 0))) self)).
  - rewrite set_pathloss_in_range by lra. reflexivity.
  - rewrite set_pathloss_eq. reflexivity.
  - exact (reachable_step Hreach (step_set_pathloss (Some (Some NaN)) self)).
  - rewrite set_pathloss_eq. reflexivity.
Qed.

Lemma get_last_impulse_response_scaled self :
  pathloss_accepted self ->
  fst (get_last_impulse_response self)
  = scale_response (_pathloss_value self)
                   (fst (tdl_get_last_impulse_response (_tdlchannel self))).
Proof.
  unfold pathloss_accepted. intros Hinv.
  rewrite get_last_impulse_response_eq.
  destruct (_pathloss_value self) as [x|].
  - rewrite math_sqrt_float_accepted by exact Hinv. cbn.
    destruct (fst (tdl_get_last_impulse_response (_tdlchannel self)));
      reflexivity.
  - cbn. destruct (fst (tdl_get_last_impulse_response (_tdlchannel self)));
      reflexivity.
Qed.

Lemma with_pathloss_scale_output (pl : option pyfloat) (r : exn + ndarray) :
  match pl with Some x => passes_guard x | None => True end ->
  with_pathloss pl r = scale_output pl r.
Proof.
  destruct pl as [x|]; intros Hx; unfold with_pathloss, scale_output.
  - destruct r; [reflexivity|].
    now rewrite math_sqrt_float_accepted by exact Hx.
  - destruct r; reflexivity.
Qed.

Lemma follows_keeps_pathloss self later :
  follows_without_set_pathloss self later ->
  (reachable self -> reachable later) /\
  _pathloss_value later = _pathloss_value self.
Proof.
  induction 1 as [|signal later _ [IHr IHp]
                  |signal fft_size carrier_indexes later _ [IHr IHp]
                  |later _ [IHr IHp]].
  - split; [tauto|reflexivity].
  - split.
    + intros Hr. apply (reachable_step (IHr Hr)). apply step_corrupt_data.
    + rewrite corrupt_data_eq. exact IHp.
  - split.
    + intros Hr. apply (reachable_step (IHr Hr)).
      apply step_corrupt_data_in_freq_domain.
    + rewrite corrupt_data_in_freq_domain_eq. exact IHp.
  - split.
    + intros Hr. apply (reachable_step (IHr Hr)).
      apply step_get_last_impulse_response.
    + rewrite <- IHp. rewrite get_last_impulse_response_eq.
      destruct (_pathloss_value later) as [x|] eqn:E; [|cbn; now rewrite E].
      destruct (math_sqrt_float x); cbn; now rewrite E.
Qed.

(** C4, as amended: in every state of a channel object,
    [get_last_impulse_response] returns the last impulse response of the
    inner channel multiplied by the square root of the pathloss that is
    stored when it is called, and as it is when that pathloss is [None].
    As long as [set_pathloss] is not called after a corruption call, the
    factor is the one that call applied to the signal: for a number [v],
    every sample of the inner output times [sqrt v] and the inner
    response times [sqrt v]. *)
Theorem get_last_impulse_response_matches_corruption self :
  reachable self ->
  fst (get_last_impulse_response self)
  = scale_response (_pathloss_value self)
                   (fst (tdl_get_last_impulse_response (_tdlchannel self))) /\
  (forall signal,
     let after := snd (corrupt_data signal self) in
     _pathloss_value after = _pathloss_value self /\
     fst (corrupt_data signal self)
     = scale_output (_pathloss_value after)
                    (fst (tdl_corrupt_data signal (_tdlchannel self))) /\
     fst (get_last_impulse_response after)
     = scale_response (_pathloss_value after)
                      (fst (tdl_get_last_impulse_response (_tdlchannel after))) /\
     (forall later,
        follows_without_set_pathloss after later ->
        _pathloss_value later = _pathloss_value after /\
        fst (get_last_impulse_response later)
        = scale_response
            (_pathloss_value after)
            (fst (tdl_get_last_impulse_response (_tdlchannel later)))) /\
     forall v : R,
       _pathloss_value after = Some (Fin v) ->
       scales_by (sqrt v) (fst (tdl_corrupt_data signal (_tdlchannel self)))
                 (fst (corrupt_data signal self)) /\
       fst (get_last_impulse_response after)
       = match fst (tdl_get_last_impulse_response (_tdlchannel after)) with
         | inl e => inl e
         | inr h => inr (ir_rmul (sqrt v) h)
         end) /\
  (forall signal fft_size carrier_indexes,
     let after :=
       snd (corrupt_data_in_freq_domain signal fft_size carrier_indexes self) in
     _pathloss_value after = _pathloss_value self /\
     fst (corrupt_data_in_freq_domain signal fft_size carrier_indexes self)
     = scale_output
         (_pathloss_value after)
         (fst (tdl_corrupt_data_in_freq_domain signal fft_size carrier_indexes
                                               (_tdlchannel self))) /\
     fst (get_last_impulse_response after)
     = scale_response (_pathloss_value after)
                      (fst (tdl_get_last_impulse_response (_tdlchannel after))) /\
     (forall later,
        follows_without_set_pathloss after later ->
        _pathloss_value later = _pathloss_value after /\
        fst (get_last_impulse_response later)
        = scale_response
            (_pathloss_value after)
            (fst (tdl_get_last_impulse_response (_tdlchannel later)))) /\
     forall v : R,
       _pathloss_value after = Some (Fin v) ->
       scales_by
         (sqrt v)
         (fst (tdl_corrupt_data_in_freq_domain signal fft_size carrier_indexes
                                               (_tdlchannel self)))
         (fst (corrupt_data_in_freq_domain signal fft_size carrier_indexes self)) /\
       fst (get_last_impulse_response after)
       = match fst (tdl_get_last_impulse_response (_tdlchannel after)) with
         | inl e => inl e
         | inr h => inr (ir_rmul (sqrt v) h)
         end).
Proof.
  intros Hreach.
  pose proof (reachable_pathloss_accepted Hreach) as Hinv.
  assert (Hpl : match _pathloss_value self with
                | Some x => passes_guard x
                | None => True
                end) by exact Hinv.
  assert (Hnum : forall (after : SuSisoChannel Tdl) (r out : exn + ndarray) v,
             pathloss_accepted after ->
             _pathloss_value after = Some (Fin v) ->
             out = scale_output (_pathloss_value after) r ->
             scales_by (sqrt v) r out /\
             fst (get_last_impulse_response after)
             = match fst (tdl_get_last_impulse_response (_tdlchannel after)) with
               | inl e => inl e
               | inr h => inr (ir_rmul (sqrt v) h)
               end).
  { intros after r out v Hacc Hv ->. split.
    - rewrite Hv. destruct r as [e|output]; cbn; [reflexivity|].
      exact (scale_outcome_scales_by (sqrt v) (inr output)).
    - rewrite get_last_impulse_response_scaled by exact Hacc. rewrite Hv.
      destruct (fst (tdl_get_last_impulse_response (_tdlchannel after)));
        reflexivity. }
  assert (Hlater : forall after later : SuSisoChannel Tdl,
             reachable after ->
             follows_without_set_pathloss after later ->
             _pathloss_value later = _pathloss_value after /\
             fst (get_last_impulse_response later)
             = scale_response
                 (_pathloss_value after)
                 (fst (tdl_get_last_impulse_response (_tdlchannel later)))).
  { intros after later Hr Hf.
    destruct (follows_keeps_pathloss Hf) as [Hrl Hpl'].
    split; [exact Hpl'|]. rewrite <- Hpl'.
    apply get_last_impulse_response_scaled.
    apply reachable_pathloss_accepted. now apply Hrl. }
  split; [now apply get_last_impulse_response_scaled|]. split.
  - intros signal after.
    assert (Hrafter : reachable after).
    { apply (reachable_step Hreach). apply step_corrupt_data. }
    assert (Hacc : pathloss_accepted after)
      by now apply reachable_pathloss_accepted.
    assert (Hout : fst (corrupt_data signal self)
                   = scale_output (_pathloss_value after)
                       (fst (tdl_corrupt_data signal (_tdlchannel self)))).
    { subst after. rewrite corrupt_data_eq. cbn.
      now apply with_pathloss_scale_output. }
    split; [subst after; rewrite corrupt_data_eq; reflexivity|].
    split; [exact Hout|].
    split; [now apply get_last_impulse_response_scaled|].
    split; [intros later Hf; now apply Hlater|].
    intros v Hv. now apply (Hnum after _ _ v Hacc Hv Hout).
  - intros signal fft_size carrier_indexes after.
    assert (Hrafter : reachable after).
    { apply (reachable_step Hreach). apply step_corrupt_data_in_freq_domain. }
    assert (Hacc : pathloss_accepted after)
      by now apply reachable_pathloss_accepted.
    assert (Hout : fst (corrupt_data_in_freq_domain signal fft_size
                                                    carrier_indexes self)
                   = scale_output (_pathloss_value after)
                       (fst (tdl_corrupt_data_in_freq_domain
                               signal fft_size carrier_indexes
                               (_tdlchannel self)))).
    { subst after. rewrite corrupt_data_in_freq_domain_eq. cbn.
      now apply with_pathloss_scale_output. }
    split; [subst after; rewrite corrupt_data_in_freq_domain_eq; reflexivity|].
    split; [exact Hout|].
    split; [now apply get_last_impulse_response_scaled|].
    split; [intros later Hf; now apply Hlater|].
    intros v Hv. now apply (Hnum after _ _ v Hacc Hv Hout).
Qed.

(** C10: [set_pathloss()] without argument is [set_pathloss(None)]: it
    succeeds and disables the pathloss, so that the corruption methods
    then return the outcome of the inner channel as it is, leave the
    pathloss disabled, and [get_last_impulse_response] returns the inner
    channel's response as it is. *)
Theorem set_pathloss_without_argument self :
  set_pathloss_call None self = set_pathloss_call (Some None) self /\
  set_pathloss_call None self = (inr tt, set_pathloss_value None self) /\
  (let self' := snd (set_pathloss_call None self) in
   _pathloss_value self' = None /\
   _tdlchannel self' = _tdlchannel self /\
   (forall signal,
      fst (corrupt_data signal self')
      = fst (tdl_corrupt_data signal (_tdlchannel self)) /\
      _pathloss_value (snd (corrupt_data signal self')) = None) /\
   (forall signal fft_size carrier_indexes,
      fst (corrupt_data_in_freq_domain signal fft_size carrier_indexes self')
      = fst (tdl_corrupt_data_in_freq_domain signal fft_size carrier_indexes
                                             (_tdlchannel self)) /\
      _pathloss_value
        (snd (corrupt_data_in_freq_domain signal fft_size carrier_indexes self'))
      = None) /\
   get_last_impulse_response self'
   = on_tdlchannel tdl_get_last_impulse_response self').
Proof.
  unfold set_pathloss_call. rewrite set_pathloss_eq. cbn [snd].
  repeat split.
  - rewrite corrupt_data_eq. cbn. apply with_pathloss_None.
  - rewrite corrupt_data_eq. reflexivity.
  - rewrite corrupt_data_in_freq_domain_eq. cbn. apply with_pathloss_None.
  - rewrite corrupt_data_in_freq_domain_eq. reflexivity.
Qed.

Lemma dB2Linear_0 : Fading.dB2Linear 0 = 1.
Proof.
  unfold Fading.dB2Linear, Rdiv. rewrite Rmult_0_l. apply Rpower_O. lra.
Qed.

(** C3: [SuSisoChannel()] without arguments builds the inner channel from
    a Rayleigh generator, exactly one tap of power 0 dB (linear power 1)
    at delay zero, and the sampling interval [Ts = 1]. *)
Theorem default_construction_is_flat_fading :
  let args := SuSisoChannel_init_args None None None None None in
  SuSisoChannel_init None None None None None
  = match TdlChannel_new args with
    | inl e => inl e
    | inr t => inr (mkSuSisoChannel t None)
    end /\
  arg_fading_generator args = RayleighSampleGenerator /\
  arg_channel_profile args = None /\
  arg_tap_powers_dB args = Some [0] /\
  arg_tap_delays args = Some [0] /\
  arg_Ts args = Some 1 /\
  map Fading.dB2Linear [0] = [1].
Proof.
  cbn. rewrite dB2Linear_0. repeat split.
Qed.

(** C7: [SuSisoChannel(fading_generator=g)] without profile, tap powers
    and tap delays passes to the inner channel the single tap of the
    default construction (power 0 dB, delay 0, no profile object), with
    [g] as the generator. *)
Theorem generator_alone_is_flat_fading (g : Gen) (Ts : option R) :
  let args := SuSisoChannel_init_args (Some g) None None None Ts in
  let default := SuSisoChannel_init_args None None None None None in
  arg_fading_generator args = g /\
  arg_channel_profile args = arg_channel_profile default /\
  arg_tap_powers_dB args = arg_tap_powers_dB default /\
  arg_tap_delays args = arg_tap_delays default /\
  arg_tap_powers_dB args = Some [0] /\
  arg_tap_delays args = Some [0] /\
  SuSisoChannel_init (Some g) None None None Ts
  = match TdlChannel_new args with
    | inl e => inl e
    | inr t => inr (mkSuSisoChannel t None)
    end.
Proof.
  cbn. repeat split.
Qed.

(** C9: the default [Ts = 1] is applied only when the fading generator is
    omitted too: with a generator [g] and nothing else the inner channel
    receives [Ts = None], and more generally the [Ts] it was given, while
    without any argument it receives [Ts = 1]. *)
Theorem Ts_default_needs_omitted_generator :
  (forall g : Gen,
     arg_Ts (SuSisoChannel_init_args (Some g) None None None None) = None) /\
  arg_Ts (SuSisoChannel_init_args None None None None None) = Some 1 /\
  (forall (g : Gen) channel_profile tap_powers_dB tap_delays Ts,
     arg_Ts (SuSisoChannel_init_args (Some g) channel_profile
                                     tap_powers_dB tap_delays Ts) = Ts).
Proof.
  split; [reflexivity|]. split; [reflexivity|].
  intros g cp tp td ts. unfold SuSisoChannel_init_args.
  destruct cp, tp, td; reflexivity.
Qed.

End SuSisoProperties.

(* ================================================================= *)
(** ** The facade over the channel engine *)

Lemma flat_channel_init :
  SuSisoChannel_init (ops := unit_ops) None None None None None
  = inr flat_channel.
Proof. reflexivity. Qed.

Lemma flat_channel_reachable : reachable (ops := unit_ops) flat_channel.
Proof. exact (reachable_init (ops := unit_ops) _ _ _ _ _ flat_channel_init). Qed.

(** C6: when tap powers and tap delays that do not pair up are supplied
    (one without the other, or of different lengths), [__init__] hands
    both to the inner channel as they are and construction raises: no
    channel is built. *)
Theorem mismatched_taps_fail_construction
  (rayleigh : nat -> C)
  (fading_generator : option Fading.FadingSampleGenerator)
  (channel_profile : option Fading.TdlChannelProfile)
  (tap_powers_dB tap_delays : option (list R)) (Ts : option R) :
  taps_mismatch tap_powers_dB tap_delays ->
  let args :=
    SuSisoChannel_init_args (ops := Fading.ops rayleigh) fading_generator
                            channel_profile tap_powers_dB tap_delays Ts in
  arg_tap_powers_dB args = tap_powers_dB /\
  arg_tap_delays args = tap_delays /\
  exists msg,
    SuSisoChannel_init (ops := Fading.ops rayleigh) fading_generator
                       channel_profile tap_powers_dB tap_delays Ts
    = inl (ValueError msg).
Proof.
  intros Hmis args. subst args.
  unfold SuSisoChannel_init, SuSisoChannel_init_args.
  destruct tap_powers_dB as [p|], tap_delays as [d|]; cbn in Hmis;
    try contradiction.
  - destruct fading_generator, channel_profile; cbn;
      (split; [reflexivity|]; split; [reflexivity|]);
      unfold Fading.TdlChannel_init, Fading.TdlChannelProfile_init; cbn;
      apply Nat.eqb_neq in Hmis; rewrite Hmis; cbn; eexists; reflexivity.
  - destruct fading_generator, channel_profile; cbn;
      (split; [reflexivity|]; split; [reflexivity|]); eexists; reflexivity.
  - destruct fading_generator, channel_profile; cbn;
      (split; [reflexivity|]; split; [reflexivity|]); eexists; reflexivity.
Qed.

(* ================================================================= *)
(** ** Properties of [randn_c] *)

Section Moments.

Context {Omega : Type} (E : Expectation Omega).

Lemma expect_zero_mean_scal (c : R) (X : Omega -> R) :
  E X = 0 -> E (fun w => X w * c) = 0.
Proof.
  intros HX.
  rewrite (expect_ext E (fun w => X w * c) (fun w => c * X w))
    by (intros; ring).
  rewrite expect_scal, HX. ring.
Qed.

Lemma variance_scal (c : R) (X : Omega -> R) :
  variance E (fun w => X w * c) = c * c * variance E X.
Proof.
  unfold variance.
  assert (Hm : E (fun w => X w * c) = c * E X).
  { rewrite <- expect_scal. apply expect_ext. intros w. ring. }
  rewrite Hm, <- (expect_scal E (c * c)).
  apply expect_ext. intros w. ring.
Qed.

Lemma variance_centered (X : Omega -> R) :
  E X = 0 -> variance E X = E (fun w => X w * X w).
Proof.
  intros HX. unfold variance. apply expect_ext. intros w. rewrite HX. ring.
Qed.

Lemma independent_scal (c d : R) (X Y : Omega -> R) :
  independent E X Y ->
  independent E (fun w => X w * c) (fun w => Y w * d).
Proof.
  intros H f g.
  exact (H (fun t => f (t * c)) (fun t => g (t * d))).
Qed.

End Moments.

Lemma sqrt2_neq_0 : sqrt 2 <> 0.
Proof.
  intros H. apply sqrt_eq_0 in H; lra.
Qed.

Lemma inv_sqrt2_sqr : / sqrt 2 * / sqrt 2 = 1 / 2.
Proof.
  rewrite <- Rinv_mult, sqrt_sqrt by lra. lra.
Qed.

Lemma map_seq_shift {A : Type} (f : nat -> A) (a n : nat) :
  map f (seq a n) = map (fun i => f (a + i)%nat) (seq 0 n).
Proof.
  revert a. induction n as [|n IH]; intros a; [reflexivity|].
  cbn [seq map]. rewrite Nat.add_0_r. f_equal.
  rewrite IH. rewrite <- seq_shift, map_map.
  apply map_ext. intros i. f_equal. lia.
Qed.

Lemma combine_map_same {A B D : Type} (f : A -> B) (g : A -> D) (l : list A) :
  combine (map f l) (map g l) = map (fun a => (f a, g a)) l.
Proof.
  induction l as [|a l IH]; [reflexivity|]. cbn. now rewrite IH.
Qed.

(** The element that [randn_c] builds from the draws [x] and [y]. *)
Lemma randn_c_element (x y : R) :
  Cscale (1 / sqrt 2) (Cadd (RtoC x) (Cmul Cj (RtoC y)))
  = mkC (x * / sqrt 2) (y * / sqrt 2).
Proof.
  rewrite Cscale_components. cbn. f_equal; field; apply sqrt2_neq_0.
Qed.

(** [randn_c] succeeds, consumes twice as many draws as the array has
    elements, and pairs draw [i] of the first half with draw [i] of the
    second half. *)
Lemma randn_c_eq (normal : nat -> R) (args : list nat) (drawn : nat) :
  Misc.randn_c normal args drawn
  = (inr (Misc.mkArray
            args
            (map (fun i =>
                    mkC (normal (drawn + i)%nat * / sqrt 2)
                        (normal (drawn + Misc.size args + i)%nat * / sqrt 2))
                 (seq 0 (Misc.size args)))),
     (drawn + 2 * Misc.size args)%nat).
Proof.
  unfold Misc.randn_c, Misc.np_random_randn, bind, lift_result, ret.
  rewrite math_sqrt_nonneg by lra. cbn [Misc.data Misc.shape].
  f_equal; [|lia]. do 2 f_equal.
  rewrite (map_seq_shift normal drawn),
    (map_seq_shift normal (drawn + Misc.size args)).
  rewrite map_map, combine_map_same. unfold imul. rewrite !map_map.
  apply map_ext. intros i. apply randn_c_element.
Qed.

(** C8: for every shape, [randn_c] returns an array of that shape whose
    element [i] is [(x + 1j*y)/sqrt(2)], where [x] and [y] are two
    different draws of the random source. When the draws it consumes are
    standard (zero mean, unit variance) and independent of one another,
    the real and imaginary parts of every element are independent, have
    zero mean and variance 1/2 each, and the mean squared modulus is 1. *)
Theorem randn_c_unit_power
  (Omega : Type) (E : Expectation Omega) (normal : Omega -> nat -> R)
  (args : list nat) (drawn : nat) :
  let n := Misc.size args in
  (forall k, (drawn <= k < drawn + 2 * n)%nat ->
             standard E (fun w => normal w k)) ->
  (forall j k, (drawn <= j < drawn + 2 * n)%nat ->
               (drawn <= k < drawn + 2 * n)%nat -> j <> k ->
               independent E (fun w => normal w j) (fun w => normal w k)) ->
  exists z : Omega -> nat -> C,
    (forall w,
       Misc.randn_c (normal w) args drawn
       = (inr (Misc.mkArray args (map (z w) (seq 0 n))),
          (drawn + 2 * n)%nat)) /\
    (forall i, (i < n)%nat ->
       (forall w,
          z w i = Cscale (1 / sqrt 2)
                         (Cadd (RtoC (normal w (drawn + i)%nat))
                               (Cmul Cj (RtoC (normal w (drawn + n + i)%nat)))) /\
          Re (z w i) = normal w (drawn + i)%nat / sqrt 2 /\
          Im (z w i) = normal w (drawn + n + i)%nat / sqrt 2) /\
       independent E (fun w => Re (z w i)) (fun w => Im (z w i)) /\
       E (fun w => Re (z w i)) = 0 /\
       E (fun w => Im (z w i)) = 0 /\
       variance E (fun w => Re (z w i)) = 1 / 2 /\
       variance E (fun w => Im (z w i)) = 1 / 2 /\
       E (fun w => Cnorm2 (z w i)) = 1).
Proof.
  intros n Hstd Hind.
  exists (fun w i => mkC (normal w (drawn + i)%nat * / sqrt 2)
                         (normal w (drawn + n + i)%nat * / sqrt 2)).
  split; [intros w; apply randn_c_eq|].
  intros i Hi.
  destruct (Hstd (drawn + i)%nat ltac:(lia)) as [Hx_mean Hx_var].
  destruct (Hstd (drawn + n + i)%nat ltac:(lia)) as [Hy_mean Hy_var].
  assert (Hre : variance E (fun w => normal w (drawn + i)%nat * / sqrt 2)
                = 1 / 2).
  { rewrite variance_scal, Hx_var, inv_sqrt2_sqr. ring. }
  assert (Him : variance E (fun w => normal w (drawn + n + i)%nat * / sqrt 2)
                = 1 / 2).
  { rewrite variance_scal, Hy_var, inv_sqrt2_sqr. ring. }
  cbn [Re Im].
  split; [|split; [|split; [|split; [|split; [|split]]]]].
  - intros w. split; [symmetry; apply randn_c_element|]. split; reflexivity.
  - apply independent_scal. apply Hind; lia.
  - now apply expect_zero_mean_scal.
  - now apply expect_zero_mean_scal.
  - exact Hre.
  - exact Him.
  - unfold Cnorm2. cbn [Re Im]. rewrite expect_plus.
    rewrite <- !variance_centered by now apply expect_zero_mean_scal.
    rewrite Hre, Him. lra.
Qed.

(* ================================================================= *)
(** ** The theorems on concrete objects *)

#[local] Existing Instance unit_ops.

(** The engine on the default channel: a tap at delay zero stays on the
    first grid position, and a sample comes out multiplied by the tap
    gain, here 1. *)
Example discretize_zero_delay : Fading.discretize 1 0 = 0%nat.
Proof.
  unfold Fading.discretize.
  replace (up (0 / 1 - / 2)) with 0%Z; [reflexivity|].
  apply tech_up; cbn; lra.
Qed.

Example flat_channel_corrupt_data :
  fst (corrupt_data (ops := unit_ops) [mkC 2 3] flat_channel) = inr [mkC 2 3].
Proof.
  rewrite corrupt_data_eq. cbn.
  unfold Fading.convolve, Fading.num_taps_with_padding. cbn.
  rewrite discretize_zero_delay. cbn.
  rewrite dB2Linear_0, sqrt_1.
  do 2 f_equal. unfold Fading.output_sample, Csum, Cadd, Cmul, Cscale. cbn.
  f_equal; ring.
Qed.

Lemma corrupt_data_scaled_by_sqrt_pathloss_witness :
  0 <= / 4 <= 1 /\
  scales_by
    (sqrt (/ 4))
    (fst (corrupt_data (ops := unit_ops) [mkC 2 3]
                       (snd (set_pathloss None flat_channel))))
    (fst (corrupt_data (ops := unit_ops) [mkC 2 3]
                       (snd (set_pathloss (Some (Fin (/ 4))) flat_channel)))).
Proof.
  assert (H : 0 <= / 4 <= 1) by lra.
  split; [exact H|].
  exact (proj1 (proj2 (proj1 (proj2 (proj2
           (@corrupt_data_scaled_by_sqrt_pathloss
              _ _ _ _ unit_ops no_nan_products flat_channel [mkC 2 3] (/ 4)
              H)))))).
Defined.

Lemma quarter_pathloss_reachable :
  reachable (ops := unit_ops)
            (snd (set_pathloss (Some (Fin (/ 4))) flat_channel)).
Proof.
  exact (reachable_step flat_channel_reachable
           (step_set_pathloss (ops := unit_ops) (Some (Some (Fin (/ 4))))
                              flat_channel)).
Qed.

Lemma get_last_impulse_response_matches_corruption_witness :
  let self := snd (set_pathloss (Some (Fin (/ 4))) flat_channel) in
  let after := snd (corrupt_data (ops := unit_ops) [mkC 2 3] self) in
  reachable (ops := unit_ops) self /\
  fst (get_last_impulse_response (ops := unit_ops) after)
  = scale_response (ops := unit_ops) (_pathloss_value after)
      (fst (tdl_get_last_impulse_response (_tdlchannel after))).
Proof.
  intros self after.
  split; [exact quarter_pathloss_reachable|].
  destruct (proj1 (proj2 (@get_last_impulse_response_matches_corruption
                            _ _ _ _ unit_ops no_nan_products self
                            quarter_pathloss_reachable))
                  [mkC 2 3]) as (_ & _ & H & _).
  exact H.
Defined.

Lemma sqrt_quarter_lt_1 : sqrt (/ 4) < 1.
Proof.
  pose proof (sqrt_lt_1_alt (/ 4) 1) as H. rewrite sqrt_1 in H.
  apply H. lra.
Qed.

(** C4, as stated, fails: the pathloss can change between the corruption
    call and the query. On the default channel, after
    [set_pathloss(0.25)], [corrupt_data] and [set_pathloss(None)], the
    signal was scaled by [sqrt 0.25] while [get_last_impulse_response]
    returns the response of the inner channel as it is, which is not
    that response scaled by [sqrt 0.25]. *)
Lemma impulse_response_after_pathloss_change :
  let self := snd (set_pathloss (Some (Fin (/ 4))) flat_channel) in
  let corrupted := snd (corrupt_data (ops := unit_ops) [mkC 2 3] self) in
  let after := snd (set_pathloss None corrupted) in
  reachable (ops := unit_ops) after /\
  fst (corrupt_data (ops := unit_ops) [mkC 2 3] self)
  = inr [Cscale (sqrt (/ 4)) (mkC 2 3)] /\
  exists h : Fading.TdlImpulseResponse,
    fst (tdl_get_last_impulse_response (_tdlchannel after)) = inr h /\
    fst (get_last_impulse_response (ops := unit_ops) after) = inr h /\
    inr h <> scale_response (ops := unit_ops) (Some (Fin (/ 4)))
                            (inr (B := Fading.TdlImpulseResponse) h).
Proof.
  intros self corrupted after.
  assert (Hself : set_pathloss (Some (Fin (/ 4))) flat_channel
                  = (inr tt, set_pathloss_value (Some (Fin (/ 4))) flat_channel)).
  { apply set_pathloss_in_range. lra. }
  split; [|split].
  - subst after corrupted.
    apply (reachable_step (self := snd (corrupt_data (ops := unit_ops)
                                                     [mkC 2 3] self))).
    + apply (reachable_step quarter_pathloss_reachable).
      apply step_corrupt_data.
    + exact (step_set_pathloss (ops := unit_ops) (Some None) _).
  - subst self. rewrite Hself. cbn [snd]. rewrite corrupt_data_eq. cbn.
    unfold Fading.convolve, Fading.num_taps_with_padding. cbn.
    rewrite discretize_zero_delay. cbn.
    rewrite dB2Linear_0, sqrt_1.
    assert (Hsq : 0 <= / 4) by lra.
    rewrite (math_sqrt_nonneg Hsq). cbn.
    do 3 f_equal. unfold unit_samples, Cadd, Cmul, Cscale, C0. cbn.
    f_equal; ring.
  - subst after corrupted self. rewrite Hself. cbn [snd].
    rewrite corrupt_data_eq. cbn [snd].
    rewrite set_pathloss_eq. cbn [snd].
    rewrite get_last_impulse_response_eq. cbn.
    eexists. split; [reflexivity|]. split; [reflexivity|].
    intros H. injection H as H.
    rewrite dB2Linear_0, sqrt_1 in H.
    pose proof sqrt_quarter_lt_1. lra.
Qed.

(** C2, as stated, fails on NaN: it is not [None] and lies outside
    [[0, 1]], and yet [set_pathloss(nan)] succeeds on the default channel
    and stores it, since [nan < 0] and [nan > 1] are both False. *)
Lemma set_pathloss_accepts_nan :
  Some NaN <> None /\
  ~ in_unit_interval NaN /\
  fst (set_pathloss (Some NaN) flat_channel) = inr tt /\
  fst (set_pathloss (Some NaN) flat_channel)
  <> inl (ValueError "Pathloss must be between 0 and 1") /\
  _pathloss_value (snd (set_pathloss (Some NaN) flat_channel)) = Some NaN.
Proof.
  split; [discriminate|]. split; [intros H; exact H|].
  rewrite set_pathloss_eq. cbn. repeat split. discriminate.
Qed.

Lemma pathloss_state_invariant_witness :
  let self := snd (set_pathloss (Some (Fin (/ 4))) flat_channel) in
  reachable (ops := unit_ops) self /\
  match _pathloss_value self with
  | None => True
  | Some (Fin v) => 0 <= v <= 1
  | Some NaN => True
  end.
Proof.
  intros self.
  split; [exact quarter_pathloss_reachable|].
  exact (proj1 (@pathloss_state_invariant _ _ _ _ unit_ops no_nan_products
                  self quarter_pathloss_reachable)).
Defined.

(** C5, as stated, fails: [set_pathloss(0)] succeeds on the default
    channel and stores [0], which is not in [(0, 1]]. *)
Lemma pathloss_zero_is_stored :
  let self := snd (set_pathloss (Some (Fin 0)) flat_channel) in
  fst (set_pathloss (Some (Fin 0)) flat_channel) = inr tt /\
  reachable (ops := unit_ops) self /\
  _pathloss_value self = Some (Fin 0) /\
  ~ pathloss_in_half_open_interval self.
Proof.
  intros self.
  assert (Hset : set_pathloss (Some (Fin 0)) flat_channel
                 = (inr tt, set_pathloss_value (Some (Fin 0)) flat_channel)).
  { apply set_pathloss_in_range. lra. }
  split; [now rewrite Hset|]. split.
  - exact (reachable_step flat_channel_reachable
             (step_set_pathloss (ops := unit_ops) (Some (Some (Fin 0)))
                                flat_channel)).
  - subst self. rewrite Hset. cbn. split; [reflexivity|].
    unfold pathloss_in_half_open_interval. cbn. lra.
Qed.

Lemma mismatched_taps_fail_construction_witness :
  taps_mismatch (Some [0; -3]) (Some [0]) /\
  exists msg,
    SuSisoChannel_init (ops := Fading.ops unit_samples) None None
                       (Some [0; -3]) (Some [0]) None
    = inl (ValueError msg).
Proof.
  assert (H : taps_mismatch (Some [0; -3]) (Some [0])) by (cbn; lia).
  split; [exact H|].
  exact (proj2 (proj2 (@mismatched_taps_fail_construction
                         unit_samples None None (Some [0; -3]) (Some [0])
                         None H))).
Defined.

(** The mean over the four outcomes of two fair coins is an expectation. *)
Lemma two_coins : Expectation (bool * bool).
Proof.
  refine (@mkExpectation (bool * bool) two_coins_mean _ _ _ _).
  - intros X Y H. unfold two_coins_mean. now rewrite !H.
  - intros X Y. unfold two_coins_mean. field.
  - intros c X. unfold two_coins_mean. field.
  - unfold two_coins_mean. field.
Defined.

Lemma two_coins_standard (k : nat) :
  (k < 2)%nat -> standard two_coins (fun w => two_coins_draws w k).
Proof.
  intros Hk. destruct k as [|[|k]]; [| |lia];
    unfold standard, variance; cbn; unfold two_coins_mean, coin; cbn;
    split; lra.
Qed.

Lemma two_coins_independent (j k : nat) :
  (j < 2)%nat -> (k < 2)%nat -> j <> k ->
  independent two_coins (fun w => two_coins_draws w j)
                        (fun w => two_coins_draws w k).
Proof.
  intros Hj Hk Hjk f g.
  destruct j as [|[|j]], k as [|[|k]]; try lia;
    cbn; unfold two_coins_mean, coin; cbn; field.
Qed.

Lemma randn_c_unit_power_witness :
  (forall k, (0 <= k < 0 + 2 * Misc.size [1%nat])%nat ->
             standard two_coins (fun w => two_coins_draws w k)) /\
  (forall j k, (0 <= j < 0 + 2 * Misc.size [1%nat])%nat ->
               (0 <= k < 0 + 2 * Misc.size [1%nat])%nat -> j <> k ->
               independent two_coins (fun w => two_coins_draws w j)
                                     (fun w => two_coins_draws w k)) /\
  exists z : bool * bool -> nat -> C,
    (forall w,
       Misc.randn_c (two_coins_draws w) [1%nat] 0%nat
       = (inr (Misc.mkArray [1%nat] [z w 0%nat]), 2%nat)) /\
    two_coins (fun w => Cnorm2 (z w 0%nat)) = 1.
Proof.
  assert (H1 : forall k, (0 <= k < 0 + 2 * Misc.size [1%nat])%nat ->
                         standard two_coins (fun w => two_coins_draws w k)).
  { intros k Hk. apply two_coins_standard. cbn in Hk. lia. }
  assert (H2 : forall j k, (0 <= j < 0 + 2 * Misc.size [1%nat])%nat ->
                           (0 <= k < 0 + 2 * Misc.size [1%nat])%nat -> j <> k ->
                           independent two_coins
                                       (fun w => two_coins_draws w j)
                                       (fun w => two_coins_draws w k)).
  { intros j k Hj Hk. cbn in Hj, Hk. apply two_coins_independent; lia. }
  split; [exact H1|]. split; [exact H2|].
  destruct (@randn_c_unit_power (bool * bool) two_coins two_coins_draws
                                [1%nat] 0%nat H1 H2) as (z & Hz & Hmom).
  exists z. split; [exact Hz|].
  exact (proj2 (proj2 (proj2 (proj2 (proj2 (proj2
           (Hmom 0%nat (Nat.lt_0_succ 0)))))))).
Defined.

(* ================================================================= *)
(** ** Properties of the integer helpers of [util/misc.py] *)

Lemma shiftr_1_xO (p : positive) : Z.shiftr (Zpos p~0) 1 = Zpos p.
Proof. reflexivity. Qed.

Lemma shiftr_1_xI (p : positive) : Z.shiftr (Zpos p~1) 1 = Zpos p.
Proof. reflexivity. Qed.

Lemma size_nat_le_to_nat (p : positive) : (Pos.size_nat p <= Pos.to_nat p)%nat.
Proof.
  induction p as [p IH|p IH|]; cbn [Pos.size_nat].
  - rewrite Pos2Nat.inj_xI. pose proof (Pos2Nat.is_pos p). lia.
  - rewrite Pos2Nat.inj_xO. pose proof (Pos2Nat.is_pos p). lia.
  - rewrite Pos2Nat.inj_1. lia.
Qed.

Lemma size_nat_log2 (p : positive) :
  Z.of_nat (Pos.size_nat p) = (Z.log2 (Zpos p) + 1)%Z.
Proof.
  assert (H : forall q, Z.of_nat (Pos.size_nat q) = Zpos (Pos.size q)).
  { induction q as [q IH|q IH|]; cbn [Pos.size_nat Pos.size];
      rewrite ?Nat2Z.inj_succ, ?IH; lia. }
  destruct p as [p|p|]; cbn [Pos.size_nat Z.log2];
    rewrite ?Nat2Z.inj_succ, ?H; lia.
Qed.

(** The loop of [int2bits] on a positive number: one round per binary
    digit. *)
Lemma int2bits_loop_pos (p : positive) :
  forall fuel bits,
    (Pos.size_nat p < fuel)%nat ->
    Misc.int2bits_loop fuel (Zpos p) bits
    = Some (bits + Z.of_nat (Pos.size_nat p))%Z.
Proof.
  induction p as [p IH|p IH|]; intros [|fuel] bits Hfuel;
    cbn [Pos.size_nat] in Hfuel; try lia; cbn [Misc.int2bits_loop Z.eqb].
  - rewrite shiftr_1_xI, IH by lia. cbn [Pos.size_nat]. f_equal. lia.
  - rewrite shiftr_1_xO, IH by lia. cbn [Pos.size_nat]. f_equal. lia.
  - destruct fuel as [|fuel]; [lia|]. reflexivity.
Qed.

(** On a negative number the loop of [int2bits] never ends. *)
Lemma int2bits_loop_neg (fuel : nat) :
  forall n bits, (n < 0)%Z -> Misc.int2bits_loop fuel n bits = None.
Proof.
  induction fuel as [|fuel IH]; intros n bits Hn; [reflexivity|].
  cbn [Misc.int2bits_loop].
  destruct (Z.eqb_spec n 0) as [->|_]; [lia|].
  apply IH. now apply Z.shiftr_neg.
Qed.

Lemma int2bits_raise_negative (fuel : nat) (n : Z) (e : exn) :
  Misc.int2bits fuel n = Some (inl e) -> (n < 0)%Z.
Proof.
  unfold Misc.int2bits.
  destruct (Z.ltb_spec n 0) as [Hn|Hn]; [intros _; exact Hn|].
  destruct (n =? 0)%Z; [discriminate|].
  destruct (Misc.int2bits_loop fuel n 0); discriminate.
Qed.

Lemma int2bits_pos_eq (fuel : nat) (n : Z) :
  (0 < n)%Z -> (Z.to_nat n < fuel)%nat ->
  Misc.int2bits fuel n = Some (inr (Z.log2 n + 1)%Z).
Proof.
  intros Hn Hfuel. destruct n as [|p|p]; try lia.
  unfold Misc.int2bits. cbn [Z.ltb Z.eqb Z.compare].
  rewrite int2bits_loop_pos.
  - cbn [option_map]. now rewrite size_nat_log2.
  - pose proof (size_nat_le_to_nat p). rewrite Z2Nat.inj_pos in Hfuel. lia.
Qed.

(** X1: [int2bits] raises its [ValueError] exactly on the negative
    numbers, whatever the number of rounds allowed; the check is what
    keeps the loop from running for ever, since on a negative number the
    loop never ends; and [int2bits(0)] is 1. *)
Theorem int2bits_raises_iff_negative (fuel : nat) (n : Z) :
  (Misc.int2bits fuel n
   = Some (inl (ValueError "int2bits: n must be greater then zero"))
   <-> (n < 0)%Z) /\
  (forall e, Misc.int2bits fuel n = Some (inl e) -> (n < 0)%Z) /\
  ((n < 0)%Z -> forall bits, Misc.int2bits_loop fuel n bits = None) /\
  Misc.int2bits fuel 0 = Some (inr 1%Z).
Proof.
  split; [split|split; [|split]].
  - apply int2bits_raise_negative.
  - intros Hn. unfold Misc.int2bits.
    apply Z.ltb_lt in Hn. now rewrite Hn.
  - intros e. apply int2bits_raise_negative.
  - intros Hn bits. now apply int2bits_loop_neg.
  - reflexivity.
Qed.

(** X2: on a positive [n], [int2bits] ends within [n] rounds of its loop
    and returns the length [b] of the binary writing of [n]:
    [b = log2 n + 1], so that [2^(b-1) <= n < 2^b]. *)
Theorem int2bits_positive (fuel : nat) (n : Z) :
  (0 < n)%Z -> (Z.to_nat n < fuel)%nat ->
  exists b : Z,
    Misc.int2bits fuel n = Some (inr b) /\
    b = (Z.log2 n + 1)%Z /\
    (2 ^ (b - 1) <= n < 2 ^ b)%Z.
Proof.
  intros Hn Hfuel. exists (Z.log2 n + 1)%Z.
  split; [now apply int2bits_pos_eq|]. split; [reflexivity|].
  replace (Z.log2 n + 1 - 1)%Z with (Z.log2 n) by lia.
  now apply Z.log2_spec.
Qed.

(** X3: [level2bits] raises its [ValueError] exactly when [n < 1],
    whatever the number of rounds allowed. For [n = 1] it returns 1,
    without a round of the loop. For [n >= 2] it ends within [n] rounds
    and returns [b = log2 (n - 1) + 1], the least number of bits that is
    enough for [n] levels: [2^(b-1) < n <= 2^b]. *)
Theorem level2bits_enough_bits (fuel : nat) (n : Z) :
  (Misc.level2bits fuel n
   = Some (inl (ValueError "level2bits: n must be greater then one"))
   <-> (n < 1)%Z) /\
  (forall e, Misc.level2bits fuel n = Some (inl e) -> (n < 1)%Z) /\
  Misc.level2bits fuel 1 = Some (inr 1%Z) /\
  ((1 <= n)%Z -> (Z.to_nat n <= fuel)%nat ->
   exists b : Z,
     Misc.level2bits fuel n = Some (inr b) /\
     b = (if (n =? 1)%Z then 1 else Z.log2 (n - 1) + 1)%Z /\
     (1 <= b)%Z /\ (n <= 2 ^ b)%Z /\ ((2 <= n)%Z -> (2 ^ (b - 1) < n)%Z)).
Proof.
  assert (H : forall e, Misc.level2bits fuel n = Some (inl e) -> (n < 1)%Z).
  { intros e. unfold Misc.level2bits.
    destruct (Z.ltb_spec n 1) as [Hn|Hn]; [intros _; exact Hn|].
    intros He. apply int2bits_raise_negative in He. lia. }
  split; [split|split; [exact H|split; [reflexivity|]]].
  - apply H.
  - intros Hn. unfold Misc.level2bits.
    apply Z.ltb_lt in Hn. now rewrite Hn.
  - intros Hn Hfuel. unfold Misc.level2bits.
    destruct (Z.ltb_spec n 1) as [Hlt|_]; [lia|].
    destruct (Z.eqb_spec n 1) as [->|Hne].
    + exists 1%Z. cbn. repeat split; lia.
    + exists (Z.log2 (n - 1) + 1)%Z.
      pose proof (Z.log2_nonneg (n - 1)).
      pose proof (Z.log2_spec (n - 1) ltac:(lia)) as [Hlo Hhi].
      split; [apply int2bits_pos_eq; lia|]. split; [reflexivity|].
      replace (Z.log2 (n - 1) + 1 - 1)%Z with (Z.log2 (n - 1)) by lia.
      repeat split; lia.
Qed.

Lemma int2bits_positive_witness :
  (0 < 5)%Z /\ (Z.to_nat 5 < 6)%nat /\
  exists b : Z, Misc.int2bits 6 5 = Some (inr b) /\ b = 3%Z.
Proof.
  assert (H1 : (0 < 5)%Z) by reflexivity.
  assert (H2 : (Z.to_nat 5 < 6)%nat) by (cbn; lia).
  split; [exact H1|]. split; [exact H2|].
  destruct (@int2bits_positive 6 5 H1 H2) as (b & Hb & Hlog & _).
  exists b. split; [exact Hb|]. rewrite Hlog. reflexivity.
Defined.

Lemma level2bits_enough_bits_witness :
  (1 <= 17)%Z /\ (Z.to_nat 17 <= 17)%nat /\
  exists b : Z,
    Misc.level2bits 17 17 = Some (inr b) /\ b = 5%Z /\ (17 <= 2 ^ b)%Z.
Proof.
  assert (H1 : (1 <= 17)%Z) by lia.
  assert (H2 : (Z.to_nat 17 <= 17)%nat) by (cbn; lia).
  split; [exact H1|]. split; [exact H2|].
  destruct (proj2 (proj2 (proj2 (level2bits_enough_bits 17 17))) H1 H2)
    as (b & Hb & Hlog & _ & Hle & _).
  exists b. split; [exact Hb|]. split; [exact Hlog|exact Hle].
Defined.

(** The tables of the docstrings of [int2bits] and [level2bits]. *)
Example int2bits_table :
  map (Misc.int2bits 20) (map Z.of_nat (seq 0 19))
  = map (fun b => Some (inr b))
        [1; 1; 2; 2; 3; 3; 3; 3; 4; 4; 4; 4; 4; 4; 4; 4; 5; 5; 5]%Z.
Proof. reflexivity. Qed.

Example level2bits_table :
  map (Misc.level2bits 20) (map Z.of_nat (seq 1 19))
  = map (fun b => Some (inr b))
        [1; 1; 2; 2; 3; 3; 3; 3; 4; 4; 4; 4; 4; 4; 4; 4; 5; 5; 5]%Z.
Proof. reflexivity. Qed.

Lemma length_filter_map {A B : Type} (f : B -> bool) (g : A -> B) (l : list A) :
  length (filter f (map g l)) = length (filter (fun a => f (g a)) l).
Proof.
  induction l as [|a l IH]; [reflexivity|]. cbn.
  destruct (f (g a)); cbn; now rewrite IH.
Qed.

Lemma ones_below_succ (k : nat) (n : Z) :
  ones_below (S k) n
  = ((if Z.testbit n 0 then 1 else 0) + ones_below k (Z.div2 n))%Z.
Proof.
  assert (T : length (filter (Z.testbit n) (map Z.of_nat (seq 1 k)))
              = length (filter (Z.testbit (Z.div2 n))
                               (map Z.of_nat (seq 0 k)))).
  { rewrite <- seq_shift, map_map, !length_filter_map.
    f_equal. apply filter_ext. intros a.
    rewrite Nat2Z.inj_succ, Z.div2_div, Z.div2_bits by lia. reflexivity. }
  unfold ones_below. cbn [seq map filter Z.of_nat].
  destruct (Z.testbit n 0); cbn [length]; rewrite T; lia.
Qed.

Lemma ones_below_0 (k : nat) : ones_below k 0 = 0%Z.
Proof.
  induction k as [|k IH]; [reflexivity|].
  rewrite ones_below_succ. cbn [Z.div2 Z.testbit]. rewrite IH. reflexivity.
Qed.

(** The loop of [_count_bits_single_element] on a positive number. *)
Lemma count_bits_loop_pos (p : positive) :
  forall fuel count k,
    (Pos.size_nat p < fuel)%nat -> (Pos.size_nat p <= k)%nat ->
    Misc.count_bits_loop fuel (Zpos p) count
    = Some (count + ones_below k (Zpos p))%Z.
Proof.
  induction p as [p IH|p IH|]; intros [|fuel] count [|k] Hfuel Hk;
    cbn [Pos.size_nat] in Hfuel, Hk; try lia;
    cbn [Misc.count_bits_loop Z.ltb Z.compare];
    rewrite ones_below_succ.
  - rewrite shiftr_1_xI.
    change (Z.land (Zpos p~1) 1 =? 1)%Z with true.
    change (Z.testbit (Zpos p~1) 0) with true.
    change (Z.div2 (Zpos p~1)) with (Zpos p). cbv iota.
    rewrite (IH fuel (count + 1)%Z k) by lia. f_equal. lia.
  - rewrite shiftr_1_xO.
    change (Z.land (Zpos p~0) 1 =? 1)%Z with false.
    change (Z.testbit (Zpos p~0) 0) with false.
    change (Z.div2 (Zpos p~0)) with (Zpos p). cbv iota.
    rewrite (IH fuel count k) by lia. f_equal; lia.
  - destruct fuel as [|fuel]; [lia|].
    change (Z.testbit 1 0) with true. change (Z.div2 1) with 0%Z.
    rewrite ones_below_0. cbn. f_equal; lia.
Qed.

(** A round of the loop never lowers the count, and raises it by the
    time the loop ends on a positive number. *)
Lemma count_bits_loop_grows (fuel : nat) :
  forall n count c,
    Misc.count_bits_loop fuel n count = Some c ->
    (count <= c)%Z /\ ((0 < n)%Z -> (count < c)%Z).
Proof.
  induction fuel as [|fuel IH]; intros n count c; [discriminate|].
  cbn [Misc.count_bits_loop].
  destruct (Z.ltb_spec 0 n) as [Hn|Hn].
  - intros H.
    change (Z.land n 1) with (Z.land n (Z.ones 1)) in H.
    rewrite Z.land_ones in H by lia. change (2 ^ 1)%Z with 2%Z in H.
    apply IH in H. destruct H as [Hle Hlt].
    rewrite Z.shiftr_div_pow2 in Hlt by lia. change (2 ^ 1)%Z with 2%Z in Hlt.
    destruct (Z.eqb_spec (n mod 2) 1) as [Hodd|Heven].
    + split; [lia|intros _; lia].
    + pose proof (Z.mod_pos_bound n 2 ltac:(lia)).
      assert (0 < n / 2)%Z.
      { apply Z.div_str_pos. pose proof (Z.div_mod n 2 ltac:(lia)). lia. }
      split; [lia|intros _; lia].
  - intros [= <-]. split; [lia|lia].
Qed.

Lemma count_bits_nonpos (fuel : nat) (n : Z) :
  (n <= 0)%Z -> (1 <= fuel)%nat ->
  Misc._count_bits_single_element fuel n = Some 0%Z.
Proof.
  intros Hn Hfuel. destruct fuel as [|fuel]; [lia|].
  unfold Misc._count_bits_single_element. cbn [Misc.count_bits_loop].
  destruct (Z.ltb_spec 0 n); [lia|reflexivity].
Qed.

(** X4: on a number [n >= 0], [_count_bits_single_element] ends within
    [n] rounds of its loop and returns the number of ones in the binary
    writing of [n], counted over any number [k] of positions that holds
    [n] ([n < 2^k]). *)
Theorem count_bits_counts_ones (fuel k : nat) (n : Z) :
  (0 <= n)%Z -> (Z.to_nat n < fuel)%nat -> (n < 2 ^ Z.of_nat k)%Z ->
  Misc._count_bits_single_element fuel n = Some (ones_below k n).
Proof.
  intros Hn Hfuel Hk. destruct n as [|p|p]; try lia.
  - rewrite count_bits_nonpos by lia. now rewrite ones_below_0.
  - unfold Misc._count_bits_single_element.
    rewrite (@count_bits_loop_pos p fuel 0%Z k).
    + f_equal.
    + pose proof (size_nat_le_to_nat p). rewrite Z2Nat.inj_pos in Hfuel. lia.
    + pose proof (size_nat_log2 p).
      apply Z.log2_lt_pow2 in Hk; lia.
Qed.

Lemma count_bits_counts_ones_witness :
  (0 <= 13)%Z /\ (Z.to_nat 13 < 14)%nat /\ (13 < 2 ^ Z.of_nat 8)%Z /\
  Misc._count_bits_single_element 14 13 = Some 3%Z.
Proof.
  assert (H1 : (0 <= 13)%Z) by lia.
  assert (H2 : (Z.to_nat 13 < 14)%nat) by (cbn; lia).
  assert (H3 : (13 < 2 ^ Z.of_nat 8)%Z) by reflexivity.
  split; [exact H1|]. split; [exact H2|]. split; [exact H3|].
  exact (@count_bits_counts_ones 14 8 13 H1 H2 H3).
Defined.

(** X5: when [_count_bits_single_element] returns, the count is never
    negative, and it is 0 exactly when [n <= 0]: negative numbers are not
    rejected, they count as having no bit set. *)
Theorem count_bits_zero_iff_nonpositive (fuel : nat) (n c : Z) :
  Misc._count_bits_single_element fuel n = Some c ->
  (0 <= c)%Z /\ (c = 0%Z <-> (n <= 0)%Z).
Proof.
  intros H. pose proof (@count_bits_loop_grows fuel n 0%Z c H) as [Hle Hlt].
  split; [exact Hle|]. split.
  - intros ->. destruct (Z.ltb_spec 0 n) as [Hn|Hn]; [|exact Hn].
    specialize (Hlt Hn). lia.
  - intros Hn. destruct fuel as [|fuel]; [discriminate|].
    rewrite count_bits_nonpos in H by lia. now inversion H.
Qed.

Lemma count_bits_zero_iff_nonpositive_witness :
  Misc._count_bits_single_element 1 (-6) = Some 0%Z /\
  (0 <= 0)%Z /\ (0%Z = 0%Z <-> (-6 <= 0)%Z).
Proof.
  split; [reflexivity|].
  exact (@count_bits_zero_iff_nonpositive 1 (-6) 0 eq_refl).
Defined.

Lemma count_bits_returns (fuel : nat) (n : Z) :
  (0 <= n)%Z -> (Z.to_nat n < fuel)%nat ->
  exists c : Z, Misc._count_bits_single_element fuel n = Some c.
Proof.
  intros Hn Hfuel. destruct n as [|p|p]; try lia.
  - exists 0%Z. apply count_bits_nonpos; lia.
  - unfold Misc._count_bits_single_element.
    rewrite (@count_bits_loop_pos p fuel 0%Z (Pos.size_nat p)).
    + eexists. reflexivity.
    + pose proof (size_nat_le_to_nat p). rewrite Z2Nat.inj_pos in Hfuel. lia.
    + lia.
Qed.

(** X6: for numbers [a, b >= 0], [_count_bits_single_element] ends on
    [xor(a, b)] within [xor(a, b)] rounds of its loop, and the count it
    returns is 0 exactly when [a = b]: the two functions together tell
    whether two words differ. *)
Theorem count_bits_xor_zero_iff_equal (fuel : nat) (a b : Z) :
  (0 <= a)%Z -> (0 <= b)%Z -> (Z.to_nat (Misc.xor a b) < fuel)%nat ->
  exists c : Z,
    Misc._count_bits_single_element fuel (Misc.xor a b) = Some c /\
    (c = 0%Z <-> a = b).
Proof.
  intros Ha Hb Hfuel.
  assert (Hx : (0 <= Misc.xor a b)%Z) by (apply Z.lxor_nonneg; tauto).
  destruct (count_bits_returns Hx Hfuel) as [c Hc].
  exists c. split; [exact Hc|].
  pose proof (@count_bits_loop_grows fuel _ 0%Z c Hc) as [_ Hlt].
  unfold Misc.xor in *. split.
  - intros ->. apply Z.lxor_eq.
    destruct (Z.ltb_spec 0 (Z.lxor a b)) as [Hpos|Hnp]; [|lia].
    specialize (Hlt Hpos). lia.
  - intros ->. rewrite Z.lxor_nilpotent in Hc.
    rewrite count_bits_nonpos in Hc by lia. now inversion Hc.
Qed.

Lemma count_bits_xor_zero_iff_equal_witness :
  (0 <= 12)%Z /\ (0 <= 5)%Z /\ (Z.to_nat (Misc.xor 12 5) < 10)%nat /\
  exists c : Z,
    Misc._count_bits_single_element 10 (Misc.xor 12 5) = Some c /\
    (c = 0%Z <-> 12%Z = 5%Z).
Proof.
  assert (H1 : (0 <= 12)%Z) by lia.
  assert (H2 : (0 <= 5)%Z) by lia.
  assert (H3 : (Z.to_nat (Misc.xor 12 5) < 10)%nat) by (cbn; lia).
  split; [exact H1|]. split; [exact H2|]. split; [exact H3|].
  exact (@count_bits_xor_zero_iff_equal 10 12 5 H1 H2 H3).
Defined.

(** The examples of the docstring of [xor]. *)
Example xor_examples : Misc.xor 3 7 = 4%Z /\ Misc.xor 15 6 = 9%Z.
Proof. split; reflexivity. Qed.

(* ================================================================= *)
(** ** More properties of [SuSisoChannel] *)

Lemma imul_1 (a : ndarray) : imul a 1 = a.
Proof.
  unfold imul. rewrite <- (map_id a) at 2. apply map_ext.
  intros [re im]. rewrite Cscale_components. cbn. f_equal; ring.
Qed.

Lemma imul_0 (a : ndarray) : imul a 0 = repeat C0 (length a).
Proof.
  unfold imul. induction a as [|z a IH]; [reflexivity|]. cbn [map length repeat].
  rewrite IH. f_equal. rewrite Cscale_components. unfold C0. f_equal; ring.
Qed.

Lemma Cnorm2_Cscale (s : R) (z : C) :
  Cnorm2 (Cscale s z) = s * s * Cnorm2 z.
Proof.
  rewrite Cscale_components. unfold Cnorm2. cbn. ring.
Qed.

Section SuSisoMoreProperties.

Context {Gen Profile Tdl IR : Type}.
Context {ops : TdlChannelOps Gen Profile Tdl IR}.
Context {nan_products : NaNProducts IR}.

Implicit Types (self : SuSisoChannel Tdl) (signal : ndarray) (v : R).

(** X7: a pathloss of 1 is transparent: after [set_pathloss(1)] both
    corruption methods return exactly the outcome of the inner channel. *)
Theorem pathloss_one_is_transparent self signal :
  let on := snd (set_pathloss (Some (Fin 1)) self) in
  fst (set_pathloss (Some (Fin 1)) self) = inr tt /\
  fst (corrupt_data signal on)
  = fst (tdl_corrupt_data signal (_tdlchannel self)) /\
  (forall fft_size carrier_indexes,
     fst (corrupt_data_in_freq_domain signal fft_size carrier_indexes on)
     = fst (tdl_corrupt_data_in_freq_domain signal fft_size carrier_indexes
                                            (_tdlchannel self))).
Proof.
  intros on. subst on. rewrite set_pathloss_in_range by lra. cbn [fst snd].
  assert (H : forall r : exn + ndarray, with_pathloss (Some (Fin 1)) r = r).
  { intros r. rewrite with_pathloss_in_range by lra. rewrite sqrt_1.
    destruct r as [e|output]; cbn; [reflexivity|]. now rewrite imul_1. }
  split; [reflexivity|]. split.
  - rewrite corrupt_data_eq. cbn. apply H.
  - intros fft_size carrier_indexes.
    rewrite corrupt_data_in_freq_domain_eq. cbn. apply H.
Qed.

(** X8: a pathloss of 0 silences the channel: after [set_pathloss(0)]
    a corruption call that succeeds returns an array of zeros as long as
    the output of the inner channel; the inner channel still runs, and
    its exceptions still pass. *)
Theorem pathloss_zero_silences self signal :
  let on := snd (set_pathloss (Some (Fin 0)) self) in
  fst (corrupt_data signal on)
  = match fst (tdl_corrupt_data signal (_tdlchannel self)) with
    | inl e => inl e
    | inr output => inr (repeat C0 (length output))
    end /\
  _tdlchannel (snd (corrupt_data signal on))
  = snd (tdl_corrupt_data signal (_tdlchannel self)).
Proof.
  intros on. subst on. rewrite set_pathloss_in_range by lra. cbn [snd].
  rewrite corrupt_data_eq. cbn. split; [|reflexivity].
  rewrite with_pathloss_in_range by lra. rewrite sqrt_0.
  destruct (fst (tdl_corrupt_data signal (_tdlchannel self))) as [e|output];
    cbn; [reflexivity|]. now rewrite imul_0.
Qed.

(** X9: the pathloss is a power ratio: with a pathloss [v] of [[0, 1]]
    set, the squared modulus of every output sample is [v] times that of
    the sample the inner channel produced. *)
Theorem pathloss_scales_power self signal v (output : ndarray) :
  0 <= v <= 1 ->
  fst (tdl_corrupt_data signal (_tdlchannel self)) = inr output ->
  exists output',
    fst (corrupt_data signal (snd (set_pathloss (Some (Fin v)) self)))
    = inr output' /\
    length output' = length output /\
    forall i, Cnorm2 (nth i output' C0) = v * Cnorm2 (nth i output C0).
Proof.
  intros Hv Hinner. rewrite set_pathloss_in_range by exact Hv. cbn [snd].
  rewrite corrupt_data_eq. cbn. rewrite Hinner.
  rewrite with_pathloss_in_range by lra. cbn.
  exists (imul output (sqrt v)). split; [reflexivity|].
  split; [apply imul_length|].
  intros i. rewrite imul_nth, <- Cscale_components, Cnorm2_Cscale.
  rewrite sqrt_sqrt by lra. reflexivity.
Qed.

(** X10: calls of [set_pathloss] compose by the last accepted value:
    a second accepted value replaces the first, and a rejected call, one
    with a number below 0 or above 1, leaves the first in effect for the
    corruption calls that follow. NaN is not rejected: it replaces the
    first value like an accepted one. *)
Theorem set_pathloss_last_accepted_wins self signal (v w bad : R) :
  0 <= v <= 1 -> 0 <= w <= 1 -> bad < 0 \/ 1 < bad ->
  let s1 := snd (set_pathloss (Some (Fin v)) self) in
  snd (set_pathloss (Some (Fin w)) s1)
  = snd (set_pathloss (Some (Fin w)) self) /\
  fst (set_pathloss (Some (Fin bad)) s1)
  = inl (ValueError "Pathloss must be between 0 and 1") /\
  snd (set_pathloss (Some (Fin bad)) s1) = s1 /\
  fst (corrupt_data signal (snd (set_pathloss (Some (Fin bad)) s1)))
  = scale_outcome (sqrt v) (fst (tdl_corrupt_data signal (_tdlchannel self))) /\
  fst (set_pathloss (Some NaN) s1) = inr tt /\
  snd (set_pathloss (Some NaN) s1) = snd (set_pathloss (Some NaN) self) /\
  _pathloss_value (snd (set_pathloss (Some NaN) s1)) = Some NaN.
Proof.
  intros Hv Hw Hbad s1. subst s1.
  rewrite !(set_pathloss_in_range _ Hv), !(set_pathloss_in_range _ Hw).
  cbn [snd]. rewrite !set_pathloss_eq.
  assert (E : float_ltb bad 0 || float_ltb 1 bad = true).
  { apply guard_true_iff. exists bad. split; [reflexivity|exact Hbad]. }
  rewrite E. cbn [fst snd].
  repeat split.
  rewrite corrupt_data_eq. cbn. apply with_pathloss_in_range. lra.
Qed.

(** X11: the two halves of the state are kept apart: [set_pathloss]
    never touches the inner channel, raising or not; the corruption
    methods and [get_last_impulse_response] never change the pathloss,
    and a corruption call leaves the inner channel in the state its own
    call leaves it in, whatever the pathloss. *)
Theorem pathloss_and_inner_channel_are_separate
  self (pathloss_value : option pyfloat) signal :
  _tdlchannel (snd (set_pathloss pathloss_value self)) = _tdlchannel self /\
  _pathloss_value (snd (corrupt_data signal self)) = _pathloss_value self /\
  _tdlchannel (snd (corrupt_data signal self))
  = snd (tdl_corrupt_data signal (_tdlchannel self)) /\
  (forall fft_size carrier_indexes,
     _pathloss_value
       (snd (corrupt_data_in_freq_domain signal fft_size carrier_indexes self))
     = _pathloss_value self /\
     _tdlchannel
       (snd (corrupt_data_in_freq_domain signal fft_size carrier_indexes self))
     = snd (tdl_corrupt_data_in_freq_domain signal fft_size carrier_indexes
                                            (_tdlchannel self))) /\
  _pathloss_value (snd (get_last_impulse_response self))
  = _pathloss_value self.
Proof.
  split; [|split; [|split; [|split]]].
  - rewrite set_pathloss_eq. destruct pathloss_value as [x|]; [|reflexivity].
    destruct (float_ltb x 0 || float_ltb 1 x); reflexivity.
  - rewrite corrupt_data_eq. reflexivity.
  - rewrite corrupt_data_eq. reflexivity.
  - intros fft_size carrier_indexes.
    rewrite corrupt_data_in_freq_domain_eq. split; reflexivity.
  - rewrite get_last_impulse_response_eq.
    destruct (_pathloss_value self) as [x|] eqn:E; [|cbn; now rewrite E].
    destruct (math_sqrt_float x); cbn; now rewrite E.
Qed.

(** X12: in every state of a channel object the facade adds no failure
    of its own: a corruption method raises exactly when the inner
    channel raises, with the same exception, and so does
    [get_last_impulse_response] ([math.sqrt] never sees a negative
    pathloss). *)
Theorem facade_raises_iff_inner_raises self signal (e : exn) :
  reachable self ->
  (fst (corrupt_data signal self) = inl e
   <-> fst (tdl_corrupt_data signal (_tdlchannel self)) = inl e) /\
  (forall fft_size carrier_indexes,
     fst (corrupt_data_in_freq_domain signal fft_size carrier_indexes self)
     = inl e
     <-> fst (tdl_corrupt_data_in_freq_domain signal fft_size carrier_indexes
                                              (_tdlchannel self)) = inl e) /\
  (fst (get_last_impulse_response self) = inl e
   <-> fst (tdl_get_last_impulse_response (_tdlchannel self)) = inl e).
Proof.
  intros Hreach.
  pose proof (reachable_pathloss_accepted Hreach) as Hinv.
  assert (Hpl : match _pathloss_value self with
                | Some x => passes_guard x
                | None => True
                end) by exact Hinv.
  assert (H : forall r : exn + ndarray,
             with_pathloss (_pathloss_value self) r = inl e <-> r = inl e).
  { intros r. rewrite with_pathloss_scale_output by exact Hpl.
    destruct (_pathloss_value self), r; cbn; split; congruence. }
  split; [|split].
  - rewrite corrupt_data_eq. cbn. apply H.
  - intros fft_size carrier_indexes.
    rewrite corrupt_data_in_freq_domain_eq. cbn. apply H.
  - rewrite get_last_impulse_response_scaled by exact Hinv.
    destruct (_pathloss_value self),
      (fst (tdl_get_last_impulse_response (_tdlchannel self)));
      cbn; split; congruence.
Qed.

(** X13: construction fails exactly when the construction of the inner
    channel fails, with the same exception; a channel that was built
    owns the inner channel that was built, starts with the pathloss
    disabled, and its first corruption call returns the outcome of the
    inner channel as it is. *)
Theorem construction_starts_without_pathloss
  (fading_generator : option Gen) (channel_profile : option Profile)
  (tap_powers_dB tap_delays : option (list R)) (Ts : option R) :
  let args := SuSisoChannel_init_args fading_generator channel_profile
                                      tap_powers_dB tap_delays Ts in
  let built := SuSisoChannel_init fading_generator channel_profile
                                  tap_powers_dB tap_delays Ts in
  (forall e, built = inl e <-> TdlChannel_new args = inl e) /\
  (forall self,
     built = inr self ->
     TdlChannel_new args = inr (_tdlchannel self) /\
     _pathloss_value self = None /\
     forall signal,
       fst (corrupt_data signal self)
       = fst (tdl_corrupt_data signal (_tdlchannel self))).
Proof.
  intros args built. subst args built. unfold SuSisoChannel_init.
  destruct (TdlChannel_new _) as [e0|t]; split.
  - intros e. split; congruence.
  - intros self H. discriminate.
  - intros e. split; discriminate.
  - intros self [= <-]. cbn. split; [reflexivity|]. split; [reflexivity|].
    intros signal. rewrite corrupt_data_eq. cbn. apply with_pathloss_None.
Qed.

(** X14: what [__init__] hands to the inner channel when a profile, tap
    powers or tap delays are supplied: these three as they are, the
    supplied generator or else a Rayleigh generator, and the supplied
    [Ts]; [Ts = 1] takes the place of an omitted [Ts] when the generator
    and the profile are both omitted, also when tap powers and delays
    are supplied. *)
Theorem construction_passes_arguments
  (fading_generator : option Gen) (channel_profile : option Profile)
  (tap_powers_dB tap_delays : option (list R)) (Ts : option R) :
  channel_profile <> None \/ tap_powers_dB <> None \/ tap_delays <> None ->
  let args := SuSisoChannel_init_args fading_generator channel_profile
                                      tap_powers_dB tap_delays Ts in
  arg_channel_profile args = channel_profile /\
  arg_tap_powers_dB args = tap_powers_dB /\
  arg_tap_delays args = tap_delays /\
  arg_fading_generator args
  = match fading_generator with
    | Some g => g
    | None => RayleighSampleGenerator
    end /\
  arg_Ts args
  = match fading_generator, channel_profile, Ts with
    | None, None, None => Some 1
    | _, _, _ => Ts
    end.
Proof.
  intros H args. subst args. unfold SuSisoChannel_init_args.
  destruct fading_generator, channel_profile, tap_powers_dB, tap_delays, Ts;
    cbn; repeat split; destruct H as [H|[H|H]]; congruence.
Qed.

End SuSisoMoreProperties.

Lemma pathloss_scales_power_witness :
  0 <= / 4 <= 1 /\
  fst (tdl_corrupt_data [mkC 2 3] (_tdlchannel flat_channel)) = inr [mkC 2 3] /\
  exists output',
    fst (corrupt_data [mkC 2 3]
                      (snd (set_pathloss (Some (Fin (/ 4))) flat_channel)))
    = inr output' /\
    Cnorm2 (nth 0 output' C0) = / 4 * Cnorm2 (mkC 2 3).
Proof.
  assert (H1 : 0 <= / 4 <= 1) by lra.
  assert (H2 : fst (tdl_corrupt_data [mkC 2 3] (_tdlchannel flat_channel))
               = inr [mkC 2 3]).
  { pose proof flat_channel_corrupt_data as H.
    rewrite corrupt_data_eq in H. exact H. }
  split; [exact H1|]. split; [exact H2|].
  destruct (@pathloss_scales_power _ _ _ _ unit_ops no_nan_products
                                   flat_channel [mkC 2 3]
                                   (/ 4) [mkC 2 3] H1 H2)
    as (output' & Hout & _ & Hpow).
  exists output'. split; [exact Hout|]. exact (Hpow 0%nat).
Defined.

Lemma set_pathloss_last_accepted_wins_witness :
  0 <= / 4 <= 1 /\ 0 <= / 2 <= 1 /\ (2 < 0 \/ 1 < 2) /\
  fst (set_pathloss (Some (Fin 2))
                    (snd (set_pathloss (Some (Fin (/ 4))) flat_channel)))
  = inl (ValueError "Pathloss must be between 0 and 1").
Proof.
  assert (H1 : 0 <= / 4 <= 1) by lra.
  assert (H2 : 0 <= / 2 <= 1) by lra.
  assert (H3 : 2 < 0 \/ 1 < 2) by lra.
  split; [exact H1|]. split; [exact H2|]. split; [exact H3|].
  exact (proj1 (proj2 (@set_pathloss_last_accepted_wins
                         _ _ _ _ unit_ops no_nan_products flat_channel
                         [mkC 2 3] (/ 4) (/ 2) 2 H1 H2 H3))).
Defined.

Lemma facade_raises_iff_inner_raises_witness :
  reachable (ops := unit_ops) flat_channel /\
  (fst (get_last_impulse_response flat_channel)
   = inl (Exception "no impulse response is available")
   <-> fst (tdl_get_last_impulse_response (_tdlchannel flat_channel))
       = inl (Exception "no impulse response is available")).
Proof.
  split; [exact flat_channel_reachable|].
  exact (proj2 (proj2 (@facade_raises_iff_inner_raises
                         _ _ _ _ unit_ops no_nan_products flat_channel
                         [mkC 2 3]
                         (Exception "no impulse response is available")
                         flat_channel_reachable))).
Defined.

Lemma construction_passes_arguments_witness :
  (@None Fading.TdlChannelProfile <> None
   \/ Some [0; -3] <> None \/ Some [0; 1] <> None) /\
  arg_Ts (SuSisoChannel_init_args (ops := unit_ops) None None
                                  (Some [0; -3]) (Some [0; 1]) None)
  = Some 1.
Proof.
  assert (H : @None Fading.TdlChannelProfile <> None
              \/ Some [0; -3] <> None \/ Some [0; 1] <> None).
  { right. left. discriminate. }
  split; [exact H|].
  exact (proj2 (proj2 (proj2 (proj2
           (@construction_passes_arguments _ _ _ _ unit_ops None None
              (Some [0; -3]) (Some [0; 1]) None H))))).
Defined.

(* ================================================================= *)
(** ** Properties of [pretty_time] *)

Lemma Int_part_iff (x : R) (z : Z) :
  z = Int_part x <-> IZR z <= x < IZR z + 1.
Proof.
  split.
  - intros ->. pose proof (base_Int_part x). lra.
  - intros H. apply Int_part_spec. lra.
Qed.

(** Rounding down commutes with the division by 60 of ints. *)
Lemma Int_part_div_60 (x : R) : (Int_part x / 60)%Z = Int_part (x / 60).
Proof.
  apply Int_part_iff.
  pose proof (proj1 (Int_part_iff x (Int_part x)) eq_refl) as [Hlo Hhi].
  assert (Hdiv := Z.div_mod (Int_part x) 60 ltac:(lia)).
  assert (Hmod := Z.mod_pos_bound (Int_part x) 60 ltac:(lia)).
  set (q := (Int_part x / 60)%Z) in *. set (r := (Int_part x mod 60)%Z) in *.
  assert (Hx : IZR (Int_part x) = 60 * IZR q + IZR r).
  { rewrite Hdiv, plus_IZR, mult_IZR. reflexivity. }
  assert (Hr0 : 0 <= IZR r) by (apply IZR_le; lia).
  assert (Hr1 : IZR r <= 59) by (apply IZR_le; lia).
  split.
  - apply Rmult_le_reg_r with 60; [lra|]. unfold Rdiv.
    rewrite Rmult_assoc, Rinv_l by lra. lra.
  - apply Rmult_lt_reg_r with 60; [lra|]. unfold Rdiv.
    rewrite Rmult_assoc, Rinv_l by lra. lra.
Qed.

Section PrettyTimeProperties.

Variable format_2f : R -> string.

(** X15: an int [n >= 0] is written by its magnitude: below a minute
    with two decimals; below an hour as minutes [n / 60] and seconds
    [n % 60]; from an hour on as hours [n / 3600], minutes
    [(n / 60) % 60] and seconds [n % 60]. *)
Theorem pretty_time_of_nonnegative_int (n : Z) :
  (0 <= n)%Z ->
  ((n < 60)%Z ->
   Misc.pretty_time format_2f (Misc.PyInt n)
   = (format_2f (IZR n) ++ "s")%string) /\
  ((60 <= n < 3600)%Z ->
   Misc.pretty_time format_2f (Misc.PyInt n)
   = (Misc.str (n / 60) ++ "m:" ++ Misc.str (n mod 60) ++ "s")%string) /\
  ((3600 <= n)%Z ->
   Misc.pretty_time format_2f (Misc.PyInt n)
   = (Misc.str (n / 3600) ++ "h:" ++ Misc.str ((n / 60) mod 60) ++ "m:"
      ++ Misc.str (n mod 60) ++ "s")%string).
Proof.
  intros Hn. unfold Misc.pretty_time.
  cbn [Misc.py_int Misc.py_mod_60 Misc.py_int_round Misc.py_float].
  rewrite Z.div_div by lia. change (60 * 60)%Z with 3600%Z.
  split; [|split]; intros Hrange.
  - rewrite (Z.div_small n 3600), (Z.div_small n 60) by lia. reflexivity.
  - rewrite (Z.div_small n 3600) by lia. cbn [Z.ltb Z.compare].
    assert (H : (1 <= n / 60 < 60)%Z).
    { split; [apply Z.div_le_lower_bound|apply Z.div_lt_upper_bound]; lia. }
    rewrite (Z.mod_small (n / 60) 60) by lia.
    destruct (Z.ltb_spec 0 (n / 60)); [reflexivity|lia].
  - assert (H : (1 <= n / 3600)%Z) by (apply Z.div_le_lower_bound; lia).
    destruct (Z.ltb_spec 0 (n / 3600)); [reflexivity|lia].
Qed.

(** X16: an int [n < 0] is not rejected: the hours are never written,
    and the fields that are written are the remainders
    [(n / 60) % 60] and [n % 60], which are not negative. *)
Theorem pretty_time_of_negative_int (n : Z) :
  (n < 0)%Z ->
  Misc.pretty_time format_2f (Misc.PyInt n)
  = (if (0 <? (n / 60) mod 60)%Z
     then (Misc.str ((n / 60) mod 60) ++ "m:" ++ Misc.str (n mod 60) ++ "s")%string
     else (format_2f (IZR n) ++ "s")%string) /\
  (0 <= (n / 60) mod 60 < 60)%Z /\ (0 <= n mod 60 < 60)%Z.
Proof.
  intros Hn. unfold Misc.pretty_time.
  cbn [Misc.py_int Misc.py_mod_60 Misc.py_int_round Misc.py_float].
  rewrite Z.div_div by lia. change (60 * 60)%Z with 3600%Z.
  assert (H : (n / 3600 < 0)%Z) by (apply Z.div_lt_upper_bound; lia).
  destruct (Z.ltb_spec 0 (n / 3600)); [lia|].
  split; [reflexivity|]. split; apply Z.mod_pos_bound; lia.
Qed.

(** X17: a float [t] from a minute up to an hour is written as the
    minutes [floor(t / 60)] and the rest rounded to the nearest second.
    The seconds written lie in [[0, 60]]: they read 60, and not one
    minute more, exactly when [t] is within half a second of the next
    full minute. *)
Theorem pretty_time_of_float_minutes (t : R) :
  60 <= t < 3600 ->
  let m := Int_part (t / 60) in
  let s := Int_part (t - 60 * IZR m + / 2) in
  Misc.pretty_time format_2f (Misc.PyFloat t)
  = (Misc.str m ++ "m:" ++ Misc.str s ++ "s")%string /\
  (1 <= m <= 59)%Z /\ (0 <= s <= 60)%Z /\
  (s = 60%Z <-> 60 * IZR m + 59 + / 2 <= t).
Proof.
  intros Ht m s.
  pose proof (proj1 (Int_part_iff (t / 60) m) eq_refl) as [Hm0 Hm1].
  assert (Hm0' : 60 * IZR m <= t).
  { apply Rmult_le_compat_l with (r := 60) in Hm0; [|lra].
    unfold Rdiv in Hm0. replace (60 * (t * / 60)) with t in Hm0 by field.
    exact Hm0. }
  assert (Hm1' : t < 60 * IZR m + 60).
  { apply Rmult_lt_compat_l with (r := 60) in Hm1; [|lra].
    unfold Rdiv in Hm1. replace (60 * (t * / 60)) with t in Hm1 by field.
    lra. }
  assert (Hm : (1 <= m <= 59)%Z).
  { split.
    - apply Z.lt_pred_le. apply lt_IZR. cbn. lra.
    - apply Z.lt_succ_r. apply lt_IZR. cbn. lra. }
  pose proof (proj1 (Int_part_iff (t - 60 * IZR m + / 2) s) eq_refl)
    as [Hs0 Hs1].
  assert (Hs : (0 <= s <= 60)%Z).
  { split.
    - apply Z.lt_pred_le. apply lt_IZR. cbn. lra.
    - apply Z.lt_succ_r. apply lt_IZR. cbn. lra. }
  split; [|split; [exact Hm|split; [exact Hs|]]].
  - unfold Misc.pretty_time.
    cbn [Misc.py_int Misc.py_mod_60 Misc.py_int_round Misc.py_float].
    replace (Rltb t 0) with false by (symmetry; apply Rltb_false; lra).
    rewrite Int_part_div_60. fold m.
    replace (Rltb (t - 60 * IZR m) 0) with false
      by (symmetry; apply Rltb_false; lra).
    fold s. rewrite (Z.div_small m 60), (Z.mod_small m 60) by lia.
    cbn [Z.ltb Z.compare].
    destruct (Z.ltb_spec 0 m); [reflexivity|lia].
  - split.
    + intros H60. rewrite H60 in Hs0. lra.
    + intros Hlate. apply Z.le_antisymm; [lia|].
      apply Z.lt_pred_le. apply lt_IZR.
      change (IZR (Z.pred 60)) with 59. lra.
Qed.

End PrettyTimeProperties.

(** The examples of the docstring of [pretty_time] that do not depend on
    the writing of floats. *)
Example pretty_time_examples (format_2f : R -> string) :
  Misc.pretty_time format_2f (Misc.PyInt 76) = "1m:16s"%string /\
  Misc.pretty_time format_2f (Misc.PyInt 4343) = "1h:12m:23s"%string.
Proof. split; reflexivity. Qed.

Lemma pretty_time_of_nonnegative_int_witness :
  (0 <= 4343)%Z /\ (3600 <= 4343)%Z /\
  Misc.pretty_time (fun _ => EmptyString) (Misc.PyInt 4343)
  = "1h:12m:23s"%string.
Proof.
  assert (H1 : (0 <= 4343)%Z) by lia.
  assert (H2 : (3600 <= 4343)%Z) by lia.
  split; [exact H1|]. split; [exact H2|].
  exact (proj2 (proj2 (@pretty_time_of_nonnegative_int
                         (fun _ => EmptyString) 4343 H1)) H2).
Defined.

Lemma pretty_time_of_negative_int_witness :
  (-1 < 0)%Z /\
  Misc.pretty_time (fun _ => EmptyString) (Misc.PyInt (-1)) = "59m:59s"%string.
Proof.
  assert (H : (-1 < 0)%Z) by lia.
  split; [exact H|].
  exact (proj1 (@pretty_time_of_negative_int (fun _ => EmptyString) (-1) H)).
Defined.

Lemma pretty_time_of_float_minutes_witness :
  60 <= 479 / 4 < 3600 /\
  Misc.pretty_time (fun _ => EmptyString) (Misc.PyFloat (479 / 4))
  = "1m:60s"%string.
Proof.
  assert (H : 60 <= 479 / 4 < 3600) by lra.
  split; [exact H|].
  destruct (@pretty_time_of_float_minutes (fun _ => EmptyString) (479 / 4) H)
    as (Heq & _ & _ & _).
  rewrite Heq.
  assert (Hm : Int_part (479 / 4 / 60) = 1%Z).
  { symmetry. apply Int_part_iff. lra. }
  rewrite Hm.
  assert (Hs : Int_part (479 / 4 - 60 * 1 + / 2) = 60%Z).
  { symmetry. apply Int_part_iff. lra. }
  rewrite Hs. reflexivity.
Defined.

(* ================================================================= *)
(** ** Properties of the autocorrelation functions *)

Lemma Rsum_app (l l' : list R) :
  Misc.Rsum (l ++ l') = Misc.Rsum l + Misc.Rsum l'.
Proof.
  unfold Misc.Rsum. induction l as [|a l IH]; cbn; [ring|].
  rewrite IH. ring.
Qed.

Lemma sum_upto_S (f : nat -> R) (N : nat) :
  sum_upto f (S N) = sum_upto f N + f N.
Proof.
  unfold sum_upto. rewrite seq_S, map_app, Rsum_app. cbn. ring.
Qed.

Lemma sum_upto_ext (f g : nat -> R) (N : nat) :
  (forall n, (n < N)%nat -> f n = g n) -> sum_upto f N = sum_upto g N.
Proof.
  induction N as [|N IH]; intros H; [reflexivity|].
  rewrite !sum_upto_S, IH, H by (intros; try apply H; lia). reflexivity.
Qed.

Lemma sum_upto_le (f g : nat -> R) (N : nat) :
  (forall n, (n < N)%nat -> f n <= g n) -> sum_upto f N <= sum_upto g N.
Proof.
  induction N as [|N IH]; intros H; [cbn; lra|].
  rewrite !sum_upto_S.
  specialize (IH ltac:(intros; apply H; lia)).
  specialize (H N ltac:(lia)). lra.
Qed.

Lemma sum_upto_plus (f g : nat -> R) (N : nat) :
  sum_upto (fun n => f n + g n) N = sum_upto f N + sum_upto g N.
Proof.
  induction N as [|N IH]; [cbn; ring|]. rewrite !sum_upto_S, IH. ring.
Qed.

Lemma sum_upto_scal (c : R) (f : nat -> R) (N : nat) :
  sum_upto (fun n => c * f n) N = c * sum_upto f N.
Proof.
  induction N as [|N IH]; [cbn; ring|]. rewrite !sum_upto_S, IH. ring.
Qed.

Lemma sum_upto_shift (h : nat -> R) (N : nat) :
  sum_upto (fun n => h (S n)) N = sum_upto h N - h 0%nat + h N.
Proof.
  induction N as [|N IH]; [cbn; ring|]. rewrite !sum_upto_S, IH. ring.
Qed.

(** A sum of terms that are not negative and vanish from [N] on does not
    grow when its window of [N] terms is moved up. *)
Lemma sum_upto_shift_le (g : nat -> R) (N k : nat) :
  (forall i, 0 <= g i) -> (forall i, (N <= i)%nat -> g i = 0) ->
  sum_upto (fun n => g (n + k)%nat) N <= sum_upto g N.
Proof.
  intros Hpos Hzero. induction k as [|k IH].
  - rewrite (sum_upto_ext (fun n => g (n + 0)%nat) g);
      [lra|intros; f_equal; lia].
  - assert (E : sum_upto (fun n => g (n + S k)%nat) N
                = sum_upto (fun i => g (i + k)%nat) N
                  - g (0 + k)%nat + g (N + k)%nat).
    { rewrite <- (sum_upto_shift (fun i => g (i + k)%nat)).
      apply sum_upto_ext. intros; f_equal; lia. }
    rewrite E, (Hzero (N + k)%nat) by lia.
    pose proof (Hpos (0 + k)%nat). lra.
Qed.

Lemma Rsum_map_nth {A : Type} (f : A -> R) (d : A) (x : list A) :
  Misc.Rsum (map f x) = sum_upto (fun n => f (nth n x d)) (length x).
Proof.
  induction x as [|a x IH]; [reflexivity|].
  cbn [map length Misc.Rsum fold_right].
  change (fold_right Rplus 0 (map f x)) with (Misc.Rsum (map f x)).
  rewrite IH.
  pose proof (sum_upto_shift (fun i => f (nth i (a :: x) d)) (length x)) as E.
  cbn [nth] in E. rewrite E, sum_upto_S. cbn [nth]. ring.
Qed.

Lemma np_correlate_full_nonempty (a v : list R) :
  a <> [] -> v <> [] ->
  Misc.np_correlate_full a v
  = inr (map (fun m =>
                Misc.Rsum (map (fun n =>
                                  if (length v - 1 <=? n + m)%nat
                                  then nth (n + m - (length v - 1)) a 0
                                       * nth n v 0
                                  else 0)
                               (seq 0 (length v))))
             (seq 0 (length a + length v - 1))).
Proof.
  intros Ha Hv. destruct a; [contradiction|]. destruct v; [contradiction|].
  reflexivity.
Qed.

(** [calc_unorm_autocorr] on a non-empty array: the lag products from
    lag 0 to the last lag. *)
Lemma calc_unorm_autocorr_eq (x : list R) :
  x <> [] ->
  Misc.calc_unorm_autocorr x
  = inr (map (lag_product x) (seq 0 (length x))).
Proof.
  intros Hx. unfold Misc.calc_unorm_autocorr.
  rewrite np_correlate_full_nonempty by exact Hx.
  assert (HL : (1 <= length x)%nat).
  { destruct x; [contradiction|]. cbn. lia. }
  rewrite length_map, length_seq.
  replace ((length x + length x - 1) / 2)%nat with (length x - 1)%nat.
  2:{ apply Nat.div_unique with (r := 1%nat); lia. }
  f_equal. rewrite skipn_map, skipn_seq.
  replace (length x + length x - 1 - (length x - 1))%nat
    with (length x) by lia.
  cbn [Nat.add].
  rewrite (map_seq_shift _ (length x - 1) (length x)).
  apply map_ext_in. intros k Hk. apply in_seq in Hk.
  unfold lag_product, sum_upto. f_equal. apply map_ext_in.
  intros n Hn. apply in_seq in Hn.
  destruct (Nat.leb_spec (length x - 1) (n + (length x - 1 + k))); [|lia].
  f_equal. f_equal. lia.
Qed.

Lemma nth_map_seq (f : nat -> R) (N k : nat) :
  nth k (map f (seq 0 N)) 0 = if (k <? N)%nat then f k else 0.
Proof.
  destruct (Nat.ltb_spec k N) as [Hk|Hk].
  - rewrite (nth_indep _ 0 (f 0%nat)) by (now rewrite length_map, length_seq).
    rewrite map_nth, seq_nth by exact Hk. reflexivity.
  - apply nth_overflow. now rewrite length_map, length_seq.
Qed.

Lemma lag_product_0 (x : list R) :
  lag_product x 0 = Misc.Rsum (map (fun a => a * a) x).
Proof.
  rewrite (Rsum_map_nth (fun a => a * a) 0). unfold lag_product.
  apply sum_upto_ext. intros n _. now rewrite Nat.add_0_r.
Qed.

Lemma lag_product_0_nonneg (x : list R) : 0 <= lag_product x 0.
Proof.
  rewrite lag_product_0. induction x as [|a x IH]; cbn; [lra|].
  change (fold_right Rplus 0 (map (fun a => a * a) x))
    with (Misc.Rsum (map (fun a => a * a) x)).
  nra.
Qed.

(** No lag product exceeds, in absolute value, the one at lag 0. *)
Lemma lag_product_bound (x : list R) (k : nat) :
  - lag_product x 0 <= lag_product x k <= lag_product x 0.
Proof.
  set (N := length x).
  set (sq := fun i : nat => nth i x 0 * nth i x 0).
  assert (H0 : lag_product x 0 = sum_upto sq N).
  { unfold lag_product. apply sum_upto_ext. intros n _.
    unfold sq. now rewrite Nat.add_0_r. }
  assert (Hshift : sum_upto (fun n => sq (n + k)%nat) N <= sum_upto sq N).
  { apply sum_upto_shift_le.
    - intros i. unfold sq. nra.
    - intros i Hi. unfold sq. rewrite nth_overflow by exact Hi. ring. }
  assert (Hhalf : sum_upto (fun n => / 2 * (sq (n + k)%nat + sq n)) N
                  <= sum_upto sq N).
  { rewrite sum_upto_scal, sum_upto_plus. lra. }
  assert (Hsq : forall a b : R,
             a * b <= / 2 * (a * a + b * b)
             /\ -1 * (a * b) <= / 2 * (a * a + b * b)).
  { intros a b. pose proof (Rle_0_sqr (a - b)). pose proof (Rle_0_sqr (a + b)).
    unfold Rsqr in *. lra. }
  assert (Hup : sum_upto (fun n => nth (n + k) x 0 * nth n x 0) N
                <= sum_upto sq N).
  { eapply Rle_trans; [|exact Hhalf].
    apply sum_upto_le. intros n _. unfold sq. apply Hsq. }
  assert (Hlow : sum_upto (fun n => -1 * (nth (n + k) x 0 * nth n x 0)) N
                 <= sum_upto sq N).
  { eapply Rle_trans; [|exact Hhalf].
    apply sum_upto_le. intros n _. unfold sq. apply Hsq. }
  rewrite sum_upto_scal in Hlow.
  rewrite H0. unfold lag_product. fold N. lra.
Qed.

(** X18: on a non-empty array [x] of [N] samples, [calc_unorm_autocorr]
    returns [N] values, the one at index [k] being the sum of the
    products of the samples that are [k] places apart (lag 0 first). *)
Theorem calc_unorm_autocorr_lags (x : list R) :
  x <> [] ->
  exists r : list R,
    Misc.calc_unorm_autocorr x = inr r /\
    length r = length x /\
    forall k, (k < length x)%nat ->
              nth k r 0
              = sum_upto (fun n => nth (n + k) x 0 * nth n x 0) (length x).
Proof.
  intros Hx. exists (map (lag_product x) (seq 0 (length x))).
  split; [now apply calc_unorm_autocorr_eq|].
  split; [now rewrite length_map, length_seq|].
  intros k Hk. rewrite nth_map_seq.
  apply Nat.ltb_lt in Hk. now rewrite Hk.
Qed.

(** X19: the value at lag 0 is the energy of the array, the sum of the
    squares of its samples, and no value of the result exceeds it in
    absolute value. *)
Theorem calc_unorm_autocorr_peak_at_lag_0 (x : list R) :
  x <> [] ->
  exists r : list R,
    Misc.calc_unorm_autocorr x = inr r /\
    nth 0 r 0 = Misc.Rsum (map (fun a => a * a) x) /\
    forall k, Rabs (nth k r 0) <= nth 0 r 0.
Proof.
  intros Hx. exists (map (lag_product x) (seq 0 (length x))).
  split; [now apply calc_unorm_autocorr_eq|].
  assert (HL : (0 < length x)%nat).
  { destruct x; [contradiction|]. cbn. lia. }
  assert (H0 : nth 0 (map (lag_product x) (seq 0 (length x))) 0
               = lag_product x 0).
  { rewrite nth_map_seq. apply Nat.ltb_lt in HL. now rewrite HL. }
  rewrite H0. split; [apply lag_product_0|].
  intros k. rewrite nth_map_seq.
  pose proof (lag_product_0_nonneg x).
  destruct (k <? length x)%nat.
  - apply Rabs_le. apply lag_product_bound.
  - rewrite Rabs_R0. lra.
Qed.

Lemma Rsum_map_minus (c : R) (x : list R) :
  Misc.Rsum (map (fun a => a - c) x) = Misc.Rsum x - INR (length x) * c.
Proof.
  induction x as [|a x IH]; [cbn; ring|].
  cbn [map length Misc.Rsum fold_right].
  change (fold_right Rplus 0 (map (fun a => a - c) x))
    with (Misc.Rsum (map (fun a => a - c) x)).
  change (fold_right Rplus 0 x) with (Misc.Rsum x).
  rewrite IH, S_INR. ring.
Qed.

Lemma Rsum_squares_pos (x : list R) (a : R) :
  In a x -> a <> 0 -> 0 < Misc.Rsum (map (fun b => b * b) x).
Proof.
  intros Hin Ha. induction x as [|b x IH]; [contradiction|].
  cbn [map Misc.Rsum fold_right].
  change (fold_right Rplus 0 (map (fun b => b * b) x))
    with (Misc.Rsum (map (fun b => b * b) x)).
  pose proof (lag_product_0_nonneg x) as Hx. rewrite lag_product_0 in Hx.
  destruct Hin as [->|Hin].
  - assert (0 < a * a) by nra. lra.
  - specialize (IH Hin). nra.
Qed.

(** The array less its mean has mean zero. *)
Lemma np_mean_centered (x : list R) :
  x <> [] -> Misc.np_mean (map (fun a => a - Misc.np_mean x) x) = 0.
Proof.
  intros Hx. unfold Misc.np_mean at 1. rewrite Rsum_map_minus, length_map.
  assert (HN : INR (length x) <> 0).
  { apply not_0_INR. destruct x; [contradiction|discriminate]. }
  unfold Misc.np_mean. field. exact HN.
Qed.

(** X20: on an array [x] whose samples are not all equal to its mean,
    [calc_autocorr] returns as many values as [x] has samples, the first
    of them (lag 0) is 1, and all of them lie in [[-1, 1]]. *)
Theorem calc_autocorr_normalised (x : list R) :
  (exists a, In a x /\ a <> Misc.np_mean x) ->
  exists r : list R,
    Misc.calc_autocorr x = inr r /\
    length r = length x /\
    nth 0 r 0 = 1 /\
    forall k, -1 <= nth k r 0 <= 1.
Proof.
  intros (a & Hin & Ha).
  assert (Hx : x <> []) by (intros ->; contradiction).
  set (x2 := map (fun b => b - Misc.np_mean x) x).
  assert (Hx2 : x2 <> []).
  { unfold x2. destruct x; [contradiction|discriminate]. }
  assert (HN : INR (length x2) <> 0).
  { apply not_0_INR. destruct x2; [contradiction|discriminate]. }
  set (D := INR (length x2) * Misc.np_var x2).
  assert (HD : D = lag_product x2 0).
  { assert (Hm : Misc.np_mean x2 = 0) by (now apply np_mean_centered).
    unfold D, Misc.np_var. rewrite Hm.
    unfold Misc.np_mean. rewrite length_map, lag_product_0.
    rewrite (map_ext (fun b => (b - 0) * (b - 0)) (fun b => b * b))
      by (intros; ring).
    field. exact HN. }
  assert (Hpos : 0 < D).
  { rewrite HD, lag_product_0.
    apply (Rsum_squares_pos x2 (a := a - Misc.np_mean x)).
    - unfold x2. apply (in_map (fun b => b - Misc.np_mean x)). exact Hin.
    - lra. }
  exists (map (fun c => c / D) (map (lag_product x2) (seq 0 (length x2)))).
  split.
  { unfold Misc.calc_autocorr. fold x2.
    rewrite calc_unorm_autocorr_eq by exact Hx2. reflexivity. }
  split.
  { rewrite !length_map, length_seq. unfold x2. apply length_map. }
  rewrite map_map.
  assert (HL : (0 < length x2)%nat).
  { destruct x2; [contradiction|]. cbn. lia. }
  split.
  - rewrite nth_map_seq. apply Nat.ltb_lt in HL. rewrite HL.
    rewrite <- HD. field. lra.
  - intros k. rewrite nth_map_seq. destruct (k <? length x2)%nat; [|lra].
    pose proof (lag_product_bound x2 k) as [Hlo Hhi]. rewrite <- HD in *.
    split.
    + apply Rmult_le_reg_r with D; [exact Hpos|].
      unfold Rdiv. rewrite Rmult_assoc, Rinv_l by lra. lra.
    + apply Rmult_le_reg_r with D; [exact Hpos|].
      unfold Rdiv. rewrite Rmult_assoc, Rinv_l by lra. lra.
Qed.

(** The example of the docstring of [calc_unorm_autocorr]. *)
Example calc_unorm_autocorr_example :
  Misc.calc_unorm_autocorr [4; 2; 1; 3; 7; 3; 8]
  = inr [152; 79; 82; 53; 42; 28; 32].
Proof.
  rewrite calc_unorm_autocorr_eq by discriminate.
  unfold lag_product, sum_upto. cbn. f_equal.
  repeat (f_equal; try lra).
Qed.

Lemma calc_unorm_autocorr_lags_witness :
  [4; 2; 1; 3; 7; 3; 8] <> [] /\
  exists r : list R,
    Misc.calc_unorm_autocorr [4; 2; 1; 3; 7; 3; 8] = inr r /\
    length r = 7%nat.
Proof.
  assert (H : [4; 2; 1; 3; 7; 3; 8] <> []) by discriminate.
  split; [exact H|].
  destruct (@calc_unorm_autocorr_lags [4; 2; 1; 3; 7; 3; 8] H)
    as (r & Hr & Hlen & _).
  exists r. split; [exact Hr|exact Hlen].
Defined.

Lemma calc_unorm_autocorr_peak_at_lag_0_witness :
  [4; 2; 1; 3; 7; 3; 8] <> [] /\
  exists r : list R,
    Misc.calc_unorm_autocorr [4; 2; 1; 3; 7; 3; 8] = inr r /\
    forall k, Rabs (nth k r 0) <= nth 0 r 0.
Proof.
  assert (H : [4; 2; 1; 3; 7; 3; 8] <> []) by discriminate.
  split; [exact H|].
  destruct (@calc_unorm_autocorr_peak_at_lag_0 [4; 2; 1; 3; 7; 3; 8] H)
    as (r & Hr & _ & Hpeak).
  exists r. split; [exact Hr|exact Hpeak].
Defined.

Lemma calc_autocorr_normalised_witness :
  (exists a, In a [1; 3] /\ a <> Misc.np_mean [1; 3]) /\
  exists r : list R,
    Misc.calc_autocorr [1; 3] = inr r /\ length r = 2%nat /\ nth 0 r 0 = 1.
Proof.
  assert (H : exists a, In a [1; 3] /\ a <> Misc.np_mean [1; 3]).
  { exists 1. split; [now left|]. unfold Misc.np_mean. cbn. lra. }
  split; [exact H|].
  destruct (@calc_autocorr_normalised [1; 3] H) as (r & Hr & Hlen & H0 & _).
  exists r. split; [exact Hr|]. split; [exact Hlen|exact H0].
Defined.

(* ================================================================= *)
(** ** Properties of [least_right_singular_vectors] *)

Lemma firstn_seq (m a k : nat) : firstn m (seq a k) = seq a (Nat.min m k).
Proof.
  revert a k. induction m as [|m IH]; intros a [|k]; cbn; try reflexivity.
  now rewrite IH.
Qed.

(** The indexes [sort_indexes[n:]] count down from [k - n - 1] to 0. *)
Lemma skipn_rev_seq (n k : nat) :
  skipn n (rev (seq 0 k)) = rev (seq 0 (k - n)).
Proof.
  rewrite skipn_rev, length_seq, firstn_seq. f_equal. f_equal. lia.
Qed.

(** The indexes [sort_indexes[0:n]] count down from [k - 1], over
    [min n k] places. *)
Lemma firstn_rev_seq (n k : nat) :
  firstn n (rev (seq 0 k)) = rev (seq (k - n) (Nat.min n k)).
Proof.
  rewrite firstn_rev, length_seq, skipn_seq. f_equal. f_equal; lia.
Qed.

Lemma nth_rev_seq (a m j : nat) :
  (j < m)%nat -> nth j (rev (seq a m)) 0%nat = (a + (m - 1 - j))%nat.
Proof.
  intros Hj. rewrite rev_nth by (now rewrite length_seq).
  rewrite length_seq, seq_nth by lia. lia.
Qed.

Lemma forallb_rev_seq_lt (a m bound : nat) :
  forallb (fun j => (j <? bound)%nat) (rev (seq a m)) = true
  <-> (m = 0 \/ a + m <= bound)%nat.
Proof.
  rewrite forallb_forall. split.
  - intros H. destruct m as [|m]; [now left|right].
    specialize (H (a + m)%nat).
    rewrite <- in_rev, in_seq, Nat.ltb_lt in H. lia.
  - intros H x Hx. rewrite <- in_rev, in_seq in Hx.
    apply Nat.ltb_lt. lia.
Qed.

Section SingularVectorsProperties.

Variable np_linalg_svd : Misc.matrix -> Misc.matrix * list R * Misc.matrix.

(** X21: when [svd] gives a square [V_H] of size [k] and at least
    [k - n] singular values, the function succeeds and splits the
    columns of [V = V_H^H], read from the last to the first: [V0] holds
    the last [min n k] columns of [V], [V1] the [k - n] other columns,
    and the third result the first [k - n] singular values, each in
    reverse order. With [n = k], [V0] is [V] with its columns reversed,
    as the docstring notes. *)
Theorem least_right_singular_vectors_split
  (A : Misc.matrix) (n : nat) (U V_H : Misc.matrix) (Sv : list R) :
  np_linalg_svd A = (U, Sv, V_H) ->
  Misc.nrows V_H = Misc.ncols V_H ->
  (Misc.ncols V_H - n <= length Sv)%nat ->
  let k := Misc.ncols V_H in
  let V := Misc.conjugate_transpose V_H in
  exists (V0 V1 : Misc.matrix) (S1 : list R),
    Misc.least_right_singular_vectors np_linalg_svd A n = inr (V0, V1, S1) /\
    Misc.nrows V0 = k /\ Misc.ncols V0 = Nat.min n k /\
    Misc.nrows V1 = k /\ Misc.ncols V1 = (k - n)%nat /\
    length S1 = (k - n)%nat /\
    (forall i j, (j < Nat.min n k)%nat ->
                 Misc.entry V0 i j = Misc.entry V i (k - 1 - j)%nat) /\
    (forall i j, (j < k - n)%nat ->
                 Misc.entry V1 i j = Misc.entry V i (k - n - 1 - j)%nat) /\
    (forall j, (j < k - n)%nat -> nth j S1 0 = nth (k - n - 1 - j) Sv 0).
Proof.
  intros Hsvd Hsq HS k V.
  unfold Misc.least_right_singular_vectors. rewrite Hsvd.
  fold V. change (Misc.nrows V) with k.
  rewrite firstn_rev_seq, skipn_rev_seq.
  unfold Misc.take_columns, Misc.take.
  change (Misc.ncols V) with (Misc.nrows V_H). rewrite Hsq. fold k.
  rewrite (proj2 (forallb_rev_seq_lt (k - n) (Nat.min n k) k)) by lia.
  rewrite (proj2 (forallb_rev_seq_lt 0 (k - n) k)) by lia.
  rewrite (proj2 (forallb_rev_seq_lt 0 (k - n) (length Sv))) by (fold k in HS; lia).
  eexists _, _, _. split; [reflexivity|]. cbn [Misc.nrows Misc.ncols Misc.entry].
  rewrite !length_rev, !length_seq, length_map, length_rev, length_seq.
  repeat split.
  - intros i j Hj. rewrite nth_rev_seq by exact Hj. f_equal; lia.
  - intros i j Hj. rewrite nth_rev_seq by exact Hj. f_equal; lia.
  - intros j Hj.
    rewrite (nth_indep _ 0 (nth 0 Sv 0))
      by (now rewrite length_map, length_rev, length_seq).
    rewrite (map_nth (fun j => nth j Sv 0)), nth_rev_seq by exact Hj.
    f_equal; lia.
Qed.

(** X22: when [svd] gives a square [V_H] of size [k] but fewer than
    [k - n] singular values (a matrix with more columns than rows, and
    [n] small), the function raises the [IndexError] of [S[...]]. *)
Theorem least_right_singular_vectors_index_error
  (A : Misc.matrix) (n : nat) (U V_H : Misc.matrix) (Sv : list R) :
  np_linalg_svd A = (U, Sv, V_H) ->
  Misc.nrows V_H = Misc.ncols V_H ->
  (length Sv < Misc.ncols V_H - n)%nat ->
  Misc.least_right_singular_vectors np_linalg_svd A n
  = inl (Exception "IndexError: index is out of bounds").
Proof.
  intros Hsvd Hsq HS. set (k := Misc.ncols V_H) in *.
  unfold Misc.least_right_singular_vectors. rewrite Hsvd.
  change (Misc.nrows (Misc.conjugate_transpose V_H)) with k.
  rewrite firstn_rev_seq, skipn_rev_seq.
  unfold Misc.take_columns, Misc.take.
  change (Misc.ncols (Misc.conjugate_transpose V_H)) with (Misc.nrows V_H).
  rewrite Hsq. fold k.
  rewrite (proj2 (forallb_rev_seq_lt (k - n) (Nat.min n k) k)) by lia.
  rewrite (proj2 (forallb_rev_seq_lt 0 (k - n) k)) by lia.
  destruct (forallb (fun j => (j <? length Sv)%nat) (rev (seq 0 (k - n))))
    eqn:E; [|reflexivity].
  apply forallb_rev_seq_lt in E. lia.
Qed.

End SingularVectorsProperties.

Lemma least_right_singular_vectors_split_witness :
  svd_square identity_2 = (identity_2, [3; 1], identity_2) /\
  Misc.nrows identity_2 = Misc.ncols identity_2 /\
  (Misc.ncols identity_2 - 1 <= length [3; 1])%nat /\
  exists (V0 V1 : Misc.matrix) (S1 : list R),
    Misc.least_right_singular_vectors svd_square identity_2 1
    = inr (V0, V1, S1) /\
    Misc.ncols V0 = 1%nat /\ Misc.ncols V1 = 1%nat /\ nth 0 S1 0 = 3.
Proof.
  assert (H3 : (Misc.ncols identity_2 - 1 <= length [3; 1])%nat)
    by (cbn; lia).
  split; [reflexivity|]. split; [reflexivity|]. split; [exact H3|].
  destruct (@least_right_singular_vectors_split
              svd_square identity_2 1 identity_2 identity_2 [3; 1]
              eq_refl eq_refl H3)
    as (V0 & V1 & S1 & Heq & _ & Hc0 & _ & Hc1 & _ & _ & _ & HS).
  exists V0, V1, S1. split; [exact Heq|]. split; [exact Hc0|].
  split; [exact Hc1|]. exact (HS 0%nat (Nat.lt_0_succ 0)).
Defined.

Lemma least_right_singular_vectors_index_error_witness :
  svd_wide identity_2
  = (Misc.mkMatrix 1 1 (fun _ _ => mkC 1 0), [5], identity_2) /\
  Misc.nrows identity_2 = Misc.ncols identity_2 /\
  (length [5] < Misc.ncols identity_2 - 0)%nat /\
  Misc.least_right_singular_vectors svd_wide identity_2 0
  = inl (Exception "IndexError: index is out of bounds").
Proof.
  assert (H3 : (length [5] < Misc.ncols identity_2 - 0)%nat) by (cbn; lia).
  split; [reflexivity|]. split; [reflexivity|]. split; [exact H3|].
  exact (@least_right_singular_vectors_index_error
           svd_wide identity_2 0 (Misc.mkMatrix 1 1 (fun _ _ => mkC 1 0))
           identity_2 [5] eq_refl eq_refl H3).
Defined.

(** The example of the docstring of [calc_autocorr]. *)
Example calc_autocorr_example :
  Misc.calc_autocorr [4; 2; 1; 3; 7; 3; 8]
  = inr [1; - (25 / 1000); 15 / 100; - (175 / 1000); - (25 / 100);
         - (2 / 10); 0].
Proof.
  unfold Misc.calc_autocorr.
  assert (Hmean : Misc.np_mean [4; 2; 1; 3; 7; 3; 8] = 4).
  { unfold Misc.np_mean. cbn. lra. }
  rewrite Hmean. cbn [map].
  rewrite calc_unorm_autocorr_eq by discriminate.
  unfold Misc.np_var, Misc.np_mean, lag_product, sum_upto. cbn.
  f_equal. repeat (f_equal; try lra).
Qed.

(* ================================================================= *)
(** ** Properties of [peig] and [leig] *)

Lemma nth_map_Re (D : list C) (j : nat) :
  nth j (map Re D) 0 = Re (nth j D C0).
Proof. exact (map_nth Re D C0 j). Qed.

Lemma forallb_firstn_lt (n bound : nat) (l : list nat) :
  (forall i, In i l -> (i < bound)%nat) ->
  forallb (fun j => (j <? bound)%nat) (firstn n l) = true.
Proof.
  intros H. apply forallb_forall. intros x Hx. apply Nat.ltb_lt. apply H.
  rewrite <- (firstn_skipn n l). apply in_or_app. now left.
Qed.

Lemma nth_firstn_lt {A : Type} (n j : nat) (l : list A) (d : A) :
  (j < n)%nat -> nth j (firstn n l) d = nth j l d.
Proof.
  revert j l. induction n as [|n IH]; intros j l Hj; [lia|].
  destruct l as [|a l]; [now destruct j|].
  destruct j as [|j]; [reflexivity|]. cbn. apply IH. lia.
Qed.

Lemma sorts_length (a : list R) (indexes : list nat) :
  sorts a indexes -> length indexes = length a.
Proof.
  intros [Hperm _]. rewrite (Permutation_length Hperm). apply length_seq.
Qed.

Lemma sorts_bound (a : list R) (indexes : list nat) :
  sorts a indexes -> forall i, In i indexes -> (i < length a)%nat.
Proof.
  intros [Hperm _] i Hi. apply (Permutation_in _ Hperm) in Hi.
  apply in_seq in Hi. lia.
Qed.

Lemma sorts_NoDup (a : list R) (indexes : list nat) :
  sorts a indexes -> NoDup indexes.
Proof.
  intros [Hperm _]. apply (Permutation_NoDup (Permutation_sym Hperm)).
  apply seq_NoDup.
Qed.

(** Every position of [a] is listed by the indexes that sort [a]. *)
Lemma sorts_covers (a : list R) (indexes : list nat) (i : nat) :
  sorts a indexes -> (i < length a)%nat ->
  exists p, (p < length a)%nat /\ nth p indexes 0%nat = i.
Proof.
  intros Hs Hi. pose proof (sorts_length Hs) as Hlen.
  destruct Hs as [Hperm _].
  assert (Hin : In i indexes).
  { apply (Permutation_in _ (Permutation_sym Hperm)). apply in_seq. lia. }
  destruct (In_nth _ _ 0%nat Hin) as (p & Hp & Hnth).
  exists p. split; [lia|exact Hnth].
Qed.

(** The indexes that sort [a] list no position twice. *)
Lemma sorts_injective (a : list R) (indexes : list nat) (p q : nat) :
  sorts a indexes -> (p < length a)%nat -> (q < length a)%nat ->
  nth p indexes 0%nat = nth q indexes 0%nat -> p = q.
Proof.
  intros Hs Hp Hq. pose proof (sorts_length Hs) as Hlen.
  apply (proj1 (NoDup_nth indexes 0%nat) (sorts_NoDup Hs)); lia.
Qed.

Section EigenvectorsProperties.

Variable np_linalg_eig : Misc.matrix -> exn + (list C * Misc.matrix).
Variable np_argsort : list R -> list nat.

(** X23: [peig] and [leig] raise the [ValueError] of their check when
    [n] is greater than the number of columns of [A], before the
    decomposition is asked for. Otherwise an exception of
    [np.linalg.eig] passes through both as it is, and when the
    decomposition succeeds the only failure left is the [IndexError] of
    the indexing. So, unless [np.linalg.eig] itself raises it, that
    [ValueError] is raised exactly when [n] is greater than the number
    of columns. *)
Theorem peig_leig_raise_iff_too_many (A : Misc.matrix) (n : nat) :
  let too_many :=
    ValueError "`n` must be lower then the number of columns in `A`" in
  ((Misc.ncols A < n)%nat ->
   Misc.peig np_linalg_eig np_argsort A n = inl too_many /\
   Misc.leig np_linalg_eig np_argsort A n = inl too_many) /\
  ((n <= Misc.ncols A)%nat ->
   match np_linalg_eig A with
   | inl e =>
       Misc.peig np_linalg_eig np_argsort A n = inl e /\
       Misc.leig np_linalg_eig np_argsort A n = inl e
   | inr _ =>
       forall e,
         Misc.peig np_linalg_eig np_argsort A n = inl e \/
         Misc.leig np_linalg_eig np_argsort A n = inl e ->
         e = Exception "IndexError: index is out of bounds"
   end) /\
  (np_linalg_eig A <> inl too_many ->
   (Misc.peig np_linalg_eig np_argsort A n = inl too_many
    <-> (Misc.ncols A < n)%nat) /\
   (Misc.leig np_linalg_eig np_argsort A n = inl too_many
    <-> (Misc.ncols A < n)%nat)).
Proof.
  intros too_many.
  unfold Misc.peig, Misc.leig, Misc.take_columns, Misc.take_complex.
  fold too_many.
  destruct (Nat.ltb_spec (Misc.ncols A) n) as [Hn|Hn].
  - split; [intros _; split; reflexivity|]. split; [lia|].
    intros _. split; split; intros _; (reflexivity || exact Hn).
  - split; [lia|].
    destruct (np_linalg_eig A) as [e0|[D V]].
    + split; [intros _; split; reflexivity|].
      intros Hne. split; split; try lia; intros H;
        injection H as H; exfalso; apply Hne; now rewrite H.
    + split.
      * intros _ e.
        repeat match goal with
               | |- context [if ?b then _ else _] => destruct b
               end; intros [H|H]; congruence.
      * intros _. split; split; try lia;
          repeat match goal with
                 | |- context [if ?b then _ else _] => destruct b
                 end; discriminate.
Qed.

(** X24: when [np.linalg.eig] succeeds, [np.argsort] sorts the real
    parts of the [N] eigenvalues and [V] has a column for each,
    [peig(A, n)] with [n <= N] returns [n] of the eigenvalues, taken at
    [n] different positions of [D], those of greatest real part,
    greatest first, each with its own eigenvector column: an eigenvalue
    at any position that was not taken has no greater real part than
    one returned. *)
Theorem peig_dominant
  (A : Misc.matrix) (n : nat) (D : list C) (V : Misc.matrix) :
  np_linalg_eig A = inr (D, V) ->
  Misc.ncols V = length D ->
  sorts (map Re D) (np_argsort (map Re D)) ->
  (n <= Misc.ncols A)%nat -> (n <= length D)%nat ->
  let N := length D in
  let indexes := np_argsort (map Re D) in
  let taken j := nth (N - 1 - j) indexes 0%nat in
  exists (V' : Misc.matrix) (D' : list C),
    Misc.peig np_linalg_eig np_argsort A n = inr (V', D') /\
    Misc.ncols V' = n /\ length D' = n /\
    (forall j, (j < n)%nat ->
       (taken j < N)%nat /\
       nth j D' C0 = nth (taken j) D C0 /\
       forall i, Misc.entry V' i j = Misc.entry V i (taken j)) /\
    (forall j1 j2, (j1 < n)%nat -> (j2 < n)%nat -> j1 <> j2 ->
       taken j1 <> taken j2) /\
    (forall j1 j2, (j1 <= j2 < n)%nat ->
       Re (nth j2 D' C0) <= Re (nth j1 D' C0)) /\
    (forall i, (i < N)%nat -> (forall j, (j < n)%nat -> i <> taken j) ->
       forall j, (j < n)%nat -> Re (nth i D C0) <= Re (nth j D' C0)).
Proof.
  intros Heig Hcols Hs HnA HnD N indexes taken.
  pose proof (sorts_length Hs) as Hlen.
  pose proof (sorts_bound Hs) as Hbound.
  pose proof (fun i => @sorts_covers _ _ i Hs) as Hcover.
  pose proof (fun p q => @sorts_injective _ _ p q Hs) as Hinj.
  destruct Hs as [_ Hsorted].
  rewrite length_map in Hlen, Hbound, Hsorted, Hcover, Hinj.
  fold N indexes in Hlen, Hbound, Hsorted, Hcover, Hinj.
  unfold Misc.peig. destruct (Nat.ltb_spec (Misc.ncols A) n) as [Hlt|_]; [lia|].
  rewrite Heig. fold indexes.
  unfold Misc.take_columns, Misc.take_complex. rewrite Hcols. fold N.
  assert (Hrev : forall i, In i (rev indexes) -> (i < N)%nat)
    by (intros i Hi; apply Hbound; now apply in_rev).
  rewrite (forallb_firstn_lt n (rev indexes) Hrev).
  assert (Hfl : length (firstn n (rev indexes)) = n)
    by (rewrite length_firstn, length_rev, Hlen; fold N in HnD; lia).
  assert (Hnth : forall j, (j < n)%nat ->
                 nth j (firstn n (rev indexes)) 0%nat = taken j).
  { intros j Hj. rewrite nth_firstn_lt by exact Hj.
    rewrite rev_nth by (rewrite Hlen; fold N in HnD; lia).
    rewrite Hlen. unfold taken. f_equal. lia. }
  assert (HD : forall j, (j < n)%nat ->
               nth j (map (fun j => nth j D C0) (firstn n (rev indexes))) C0
               = nth (taken j) D C0).
  { intros j Hj.
    rewrite (nth_indep _ C0 (nth 0 D C0)) by (rewrite length_map; lia).
    rewrite (map_nth (fun j => nth j D C0)). now rewrite Hnth. }
  eexists _, _. split; [reflexivity|]. cbn [Misc.ncols Misc.entry].
  rewrite length_map. split; [exact Hfl|]. split; [exact Hfl|].
  fold N in HnD. split; [|split; [|split]].
  - intros j Hj. split; [|split; [now apply HD|]].
    + apply Hbound. apply nth_In. lia.
    + intros i. now rewrite Hnth.
  - intros j1 j2 Hj1 Hj2 Hne Heq. unfold taken in Heq.
    apply Hinj in Heq; lia.
  - intros j1 j2 Hj. rewrite !HD by lia. rewrite <- !nth_map_Re.
    apply Hsorted. lia.
  - intros i Hi Hout j Hj. rewrite HD by lia.
    destruct (Hcover i Hi) as (p & Hp & <-).
    assert (Hpn : (p < N - n)%nat).
    { destruct (Nat.lt_ge_cases p (N - n)) as [Hlo|Hhi]; [exact Hlo|].
      exfalso. apply (Hout (N - 1 - p)%nat); [lia|].
      unfold taken. f_equal. lia. }
    rewrite <- !nth_map_Re. apply Hsorted. lia.
Qed.

(** X25: under the same conditions [leig(A, n)] returns [n] of the
    eigenvalues, taken at [n] different positions of [D], those of least
    real part, least first, each with its own eigenvector column: an
    eigenvalue at any position that was not taken has no smaller real
    part than one returned. *)
Theorem leig_least
  (A : Misc.matrix) (n : nat) (D : list C) (V : Misc.matrix) :
  np_linalg_eig A = inr (D, V) ->
  Misc.ncols V = length D ->
  sorts (map Re D) (np_argsort (map Re D)) ->
  (n <= Misc.ncols A)%nat -> (n <= length D)%nat ->
  let N := length D in
  let indexes := np_argsort (map Re D) in
  let taken j := nth j indexes 0%nat in
  exists (V' : Misc.matrix) (D' : list C),
    Misc.leig np_linalg_eig np_argsort A n = inr (V', D') /\
    Misc.ncols V' = n /\ length D' = n /\
    (forall j, (j < n)%nat ->
       (taken j < N)%nat /\
       nth j D' C0 = nth (taken j) D C0 /\
       forall i, Misc.entry V' i j = Misc.entry V i (taken j)) /\
    (forall j1 j2, (j1 < n)%nat -> (j2 < n)%nat -> j1 <> j2 ->
       taken j1 <> taken j2) /\
    (forall j1 j2, (j1 <= j2 < n)%nat ->
       Re (nth j1 D' C0) <= Re (nth j2 D' C0)) /\
    (forall i, (i < N)%nat -> (forall j, (j < n)%nat -> i <> taken j) ->
       forall j, (j < n)%nat -> Re (nth j D' C0) <= Re (nth i D C0)).
Proof.
  intros Heig Hcols Hs HnA HnD N indexes taken.
  pose proof (sorts_length Hs) as Hlen.
  pose proof (sorts_bound Hs) as Hbound.
  pose proof (fun i => @sorts_covers _ _ i Hs) as Hcover.
  pose proof (fun p q => @sorts_injective _ _ p q Hs) as Hinj.
  destruct Hs as [_ Hsorted].
  rewrite length_map in Hlen, Hbound, Hsorted, Hcover, Hinj.
  fold N indexes in Hlen, Hbound, Hsorted, Hcover, Hinj.
  unfold Misc.leig. destruct (Nat.ltb_spec (Misc.ncols A) n) as [Hlt|_]; [lia|].
  rewrite Heig. fold indexes.
  unfold Misc.take_columns, Misc.take_complex. rewrite Hcols. fold N.
  rewrite (forallb_firstn_lt n indexes Hbound).
  assert (Hfl : length (firstn n indexes) = n)
    by (rewrite length_firstn, Hlen; fold N in HnD; lia).
  assert (HD : forall j, (j < n)%nat ->
               nth j (map (fun j => nth j D C0) (firstn n indexes)) C0
               = nth (taken j) D C0).
  { intros j Hj.
    rewrite (nth_indep _ C0 (nth 0 D C0)) by (rewrite length_map; lia).
    rewrite (map_nth (fun j => nth j D C0)). now rewrite nth_firstn_lt. }
  eexists _, _. split; [reflexivity|]. cbn [Misc.ncols Misc.entry].
  rewrite length_map. split; [exact Hfl|]. split; [exact Hfl|].
  fold N in HnD. split; [|split; [|split]].
  - intros j Hj. split; [|split; [now apply HD|]].
    + apply Hbound. apply nth_In. lia.
    + intros i. now rewrite nth_firstn_lt.
  - intros j1 j2 Hj1 Hj2 Hne Heq. unfold taken in Heq.
    apply Hinj in Heq; lia.
  - intros j1 j2 Hj. rewrite !HD by lia. rewrite <- !nth_map_Re.
    apply Hsorted. lia.
  - intros i Hi Hout j Hj. rewrite HD by lia.
    destruct (Hcover i Hi) as (p & Hp & <-).
    assert (Hpn : (n <= p)%nat).
    { destruct (Nat.lt_ge_cases p n) as [Hlo|Hhi]; [|exact Hhi].
      exfalso. now apply (Hout p Hlo). }
    rewrite <- !nth_map_Re. apply Hsorted. lia.
Qed.

End EigenvectorsProperties.

Lemma argsort_example_sorts :
  sorts (map Re [mkC 3 0; mkC 1 0])
        (argsort_example (map Re [mkC 3 0; mkC 1 0])).
Proof.
  unfold sorts, argsort_example. cbn [map Re length seq].
  split; [apply perm_swap|].
  intros p q Hpq.
  destruct p as [|[|p]], q as [|[|q]]; try lia; cbn; lra.
Defined.

Lemma peig_leig_raise_iff_too_many_witness :
  (Misc.ncols identity_2 < 3)%nat /\
  Misc.peig eig_example argsort_example identity_2 3
  = inl (ValueError "`n` must be lower then the number of columns in `A`") /\
  (1 <= Misc.ncols row_matrix)%nat /\
  Misc.leig eig_example argsort_example row_matrix 1
  = inl (Exception
           "LinAlgError: Last 2 dimensions of the array must be square").
Proof.
  assert (H1 : (Misc.ncols identity_2 < 3)%nat) by (cbn; lia).
  assert (H2 : (1 <= Misc.ncols row_matrix)%nat) by (cbn; lia).
  split; [exact H1|].
  split; [exact (proj1 (proj1 (@peig_leig_raise_iff_too_many
                                 eig_example argsort_example identity_2 3)
                              H1))|].
  split; [exact H2|].
  exact (proj2 (proj1 (proj2 (@peig_leig_raise_iff_too_many
                                eig_example argsort_example row_matrix 1))
                      H2)).
Defined.

Lemma peig_dominant_witness :
  eig_example identity_2 = inr ([mkC 3 0; mkC 1 0], identity_2) /\
  Misc.ncols identity_2 = length [mkC 3 0; mkC 1 0] /\
  sorts (map Re [mkC 3 0; mkC 1 0])
        (argsort_example (map Re [mkC 3 0; mkC 1 0])) /\
  (1 <= Misc.ncols identity_2)%nat /\ (1 <= length [mkC 3 0; mkC 1 0])%nat /\
  exists (V' : Misc.matrix) (D' : list C),
    Misc.peig eig_example argsort_example identity_2 1 = inr (V', D') /\
    nth 0 D' C0 = mkC 3 0.
Proof.
  assert (H4 : (1 <= Misc.ncols identity_2)%nat) by (cbn; lia).
  assert (H5 : (1 <= length [mkC 3 0; mkC 1 0])%nat) by (cbn; lia).
  split; [reflexivity|]. split; [reflexivity|].
  split; [exact argsort_example_sorts|]. split; [exact H4|].
  split; [exact H5|].
  destruct (@peig_dominant eig_example argsort_example identity_2 1
                           [mkC 3 0; mkC 1 0] identity_2
                           eq_refl eq_refl argsort_example_sorts H4 H5)
    as (V' & D' & Heq & _ & _ & Hsel & _).
  exists V', D'. split; [exact Heq|].
  exact (proj1 (proj2 (Hsel 0%nat (Nat.lt_0_succ 0)))).
Defined.

Lemma leig_least_witness :
  eig_example identity_2 = inr ([mkC 3 0; mkC 1 0], identity_2) /\
  Misc.ncols identity_2 = length [mkC 3 0; mkC 1 0] /\
  sorts (map Re [mkC 3 0; mkC 1 0])
        (argsort_example (map Re [mkC 3 0; mkC 1 0])) /\
  (1 <= Misc.ncols identity_2)%nat /\ (1 <= length [mkC 3 0; mkC 1 0])%nat /\
  exists (V' : Misc.matrix) (D' : list C),
    Misc.leig eig_example argsort_example identity_2 1 = inr (V', D') /\
    nth 0 D' C0 = mkC 1 0.
Proof.
  assert (H4 : (1 <= Misc.ncols identity_2)%nat) by (cbn; lia).
  assert (H5 : (1 <= length [mkC 3 0; mkC 1 0])%nat) by (cbn; lia).
  split; [reflexivity|]. split; [reflexivity|].
  split; [exact argsort_example_sorts|]. split; [exact H4|].
  split; [exact H5|].
  destruct (@leig_least eig_example argsort_example identity_2 1
                        [mkC 3 0; mkC 1 0] identity_2
                        eq_refl eq_refl argsort_example_sorts H4 H5)
    as (V' & D' & Heq & _ & _ & Hsel & _).
  exists V', D'. split; [exact Heq|].
  exact (proj1 (proj2 (Hsel 0%nat (Nat.lt_0_succ 0)))).
Defined.
